(** * audioset-processing: [utils.py]

    A shallow embedding of the label resolver ([get_label_id]), the dataset
    filter (the comprehension of [create_csv]), the identifier grouper
    ([get_yt_ids]) and the file organizer ([sort_files]), together with the
    properties the specification states about them.

    Conventions of the embedding.
    - A Python [str] of ASCII characters is the [string] of its characters
      (what the AudioSet tables and identifiers contain); [ascii_text]
      says that a [string] is one.  [lower] is [str.lower] on such
      strings, and a statement that describes the matches of a lookup in
      general assumes [ascii_text] of the class name and of the display
      names.
    - A Python exception is a value of [exn]; a computation that may raise
      has type [res A], the sum of [exn] and [A], and statements are
      sequenced left to right with [let! x := e in k].
    - [print] writes diagnostics only and is left out, except that the
      evaluation of its argument is kept where that evaluation can raise.
    - A parsed CSV row is the [list string] that [csv.reader] yields. *)

From Stdlib Require Import String Ascii List Bool Arith Lia.
From stdpp Require Import gmap strings list fin_maps fin_sets.

Local Open Scope string_scope.
Local Open Scope nat_scope.
Local Open Scope list_scope.

(** ** Exceptions and the error monad *)

Inductive exn : Type :=
  | TypeError
  | KeyError
  | IndexError
  | FileNotFoundError
  | FileExistsError
  | IsADirectoryError
  | NotADirectoryError
  | SameFileError.

Definition res (A : Type) : Type := (exn + A)%type.

Definition ret {A : Type} (a : A) : res A := inr a.
Definition raise {A : Type} (e : exn) : res A := inl e.

Definition bind {A B : Type} (m : res A) (k : A -> res B) : res B :=
  match m with
  | inl e => inl e
  | inr a => k a
  end.

Notation "'let!' x ':=' m 'in' k" := (bind m (fun x => k))
  (at level 10, x name, m at level 200, k at level 200).

(** [for x in xs: acc = body(acc, x)], stopping at the first exception. *)
Fixpoint for_each {A S : Type} (body : S -> A -> res S) (xs : list A) (s : S)
  : res S :=
  match xs with
  | [] => ret s
  | x :: rest => let! s' := body s x in for_each body rest s'
  end.

(** ** Strings *)

Definition lower_char (c : ascii) : ascii :=
  let n := nat_of_ascii c in
  if (65 <=? n) && (n <=? 90) then ascii_of_nat (n + 32) else c.

(** [s.lower()] for a string of ASCII characters: [A-Z] go to [a-z],
    every other character stays. *)
Fixpoint lower (s : string) : string :=
  match s with
  | EmptyString => EmptyString
  | String c rest => String (lower_char c) (lower rest)
  end.

(** The strings of the embedding: every character is below 128. *)
Definition ascii_text (s : string) : bool :=
  forallb (fun c => nat_of_ascii c <? 128) (list_ascii_of_string s).

(** [sub in s] on strings: [sub] occurs in [s] as a contiguous substring. *)
Fixpoint str_in (sub s : string) : bool :=
  String.prefix sub s ||
  match s with
  | EmptyString => false
  | String _ rest => str_in sub rest
  end.

(** [row[i]] on a list: [IndexError] when out of range. *)
Definition index_row (row : list string) (i : nat) : res string :=
  match nth_error row i with
  | Some field => ret field
  | None => raise IndexError
  end.

(** ** Label resolver: [get_label_id] *)

(** A row of [class_labels_indices.csv] as [csv.DictReader] yields it; the
    three columns are the ones the header names ([index, id, display_name]
    in the source, unpacked from [reader.fieldnames]). *)
Record LabelIndexEntry : Type := {
  index : string;
  mid : string;
  display_name : string
}.

(** The list bound to [label_ids] by the comprehension of either branch. *)
Definition label_ids_of (table : list LabelIndexEntry) (class_name : string)
    (strict : bool) : list string :=
  if strict then
    map mid (List.filter
      (fun row => String.eqb (lower class_name) (lower (display_name row)))
      table)
  else
    map mid (List.filter
      (fun row => str_in (lower class_name) (lower (display_name row)))
      table).

(** [get_label_id(class_name, strict)], the label table being the content
    of the file the function opens.  [label_ids is None] is never true of a
    list, so the first branch is dead; with more than one match the list is
    printed and returned; otherwise the argument of the last [print]
    concatenates a [str] and a [list], which raises [TypeError]. *)
Definition get_label_id (table : list LabelIndexEntry) (class_name : string)
    (strict : bool) : res (list string) :=
  let label_ids := label_ids_of table class_name strict in
  if 1 <? length label_ids then ret label_ids
  else raise TypeError.

Definition fixture_table : list LabelIndexEntry :=
  [ {| index := "0"; mid := "/m/09x0r"; display_name := "Speech" |};
    {| index := "1"; mid := "/m/02zsn";
       display_name := "Female speech, woman speaking" |} ].

(** The fixture with two classes whose names contain ["music"]. *)
Definition music_table : list LabelIndexEntry :=
  fixture_table ++
  [ {| index := "2"; mid := "/m/0dgw9r"; display_name := "Music" |};
    {| index := "3"; mid := "/m/04rlf";
       display_name := "Musical instrument" |} ].

(** ** Dataset filter: the comprehension of [create_csv] *)

(** The Python values that can occur in [blacklisted_ids]: a string, or a
    list of strings (what each call of [get_label_id] returns). *)
Inductive pyval : Type :=
  | PStr (s : string)
  | PList (items : list string).

(** [set(s)] for a string [s]: its one-character strings.  The set is
    represented by a list of its members; only membership and emptiness
    are observed. *)
Definition chars_of (s : string) : list string :=
  map (fun c => String c EmptyString) (list_ascii_of_string s).

(** [so.intersection(other)] for a set [so] of strings and an iterable
    [other]: every element of [other] is hashed, which raises [TypeError]
    on a list, and is kept when it is a member of [so]. *)
Fixpoint set_intersection (so : list string) (other : list pyval)
  : res (list string) :=
  match other with
  | [] => ret []
  | PList _ :: _ => raise TypeError
  | PStr key :: rest =>
      let! found := set_intersection so rest in
      ret (if existsb (String.eqb key) so then key :: found else found)
  end.

(** [bool(x)] for a set. *)
Definition truthy (x : list string) : bool :=
  match x with
  | [] => false
  | _ :: _ => true
  end.

(** The condition of the comprehension,
    [label in row[3] and bool(set(row[3]).intersection(blacklisted_ids)) is False];
    [and] evaluates its right operand only when the left one is true. *)
Definition keep (label : string) (row : list string)
    (blacklisted_ids : list pyval) : res bool :=
  let! labels := index_row row 3 in
  if str_in label labels then
    let! labels' := index_row row 3 in
    let! common := set_intersection (chars_of labels') blacklisted_ids in
    ret (negb (truthy common))
  else ret false.

(** The inner loop, [for label in label_id], for one row. *)
Fixpoint copies_of (row : list string) (label_id : list string)
    (blacklisted_ids : list pyval) : res (list (list string)) :=
  match label_id with
  | [] => ret []
  | label :: rest =>
      let! k := keep label row blacklisted_ids in
      let! more := copies_of row rest blacklisted_ids in
      ret (if k then row :: more else more)
  end.

(** [to_write = [row for row in reader for label in label_id if ...]] *)
Fixpoint to_write (reader : list (list string)) (label_id : list string)
    (blacklisted_ids : list pyval) : res (list (list string)) :=
  match reader with
  | [] => ret []
  | row :: rest =>
      let! here := copies_of row label_id blacklisted_ids in
      let! more := to_write rest label_id blacklisted_ids in
      ret (here ++ more)
  end.

(** [[f(x) for x in xs]] where [f] may raise. *)
Fixpoint map_res {A B : Type} (f : A -> res B) (xs : list A) : res (list B) :=
  match xs with
  | [] => ret []
  | x :: rest =>
      let! y := f x in
      let! ys := map_res f rest in
      ret (y :: ys)
  end.

(** [create_csv(class_name, args)]: [table] is the label table, [strict]
    and [blacklist] are [args.strict] and [args.blacklist], [dataset] the
    rows of [args.csv_dataset]; the result is the list of rows handed to
    [writer.writerows]. *)
Definition create_csv (table : list LabelIndexEntry) (class_name : string)
    (strict : bool) (blacklist : list string) (dataset : list (list string))
  : res (list (list string)) :=
  let! label_id := get_label_id table class_name strict in
  let! blacklisted_ids :=
    map_res (fun blacklisted_class =>
               let! ids := get_label_id table blacklisted_class strict in
               ret (PList ids))
            blacklist in
  to_write dataset label_id blacklisted_ids.

(** Number of wanted identifiers that occur in a label field. *)
Definition matching (label_id : list string) (labels : string) : nat :=
  length (List.filter (fun label => str_in label labels) label_id).

Definition row_eq_dec : forall x y : list string, {x = y} + {x <> y} :=
  List.list_eq_dec String.string_dec.

Definition scenario_row : list string :=
  ["abc123"; "0"; "10"; "/m/09x0r,/m/0dgw9r"].

(** ** Identifier grouper: [get_yt_ids] *)

(** A Python [dict] from [str] to [list] of [str]: keys are unique and kept
    in insertion order. *)
Definition dict : Type := list (string * list string).

Fixpoint dict_get (d : dict) (key : string) : option (list string) :=
  match d with
  | [] => None
  | (k, v) :: rest => if String.eqb k key then Some v else dict_get rest key
  end.

(** [d[key] = value]: an existing key keeps its position. *)
Fixpoint dict_set (d : dict) (key : string) (value : list string) : dict :=
  match d with
  | [] => [(key, value)]
  | (k, v) :: rest =>
      if String.eqb k key then (k, value) :: rest
      else (k, v) :: dict_set rest key value
  end.

(** [d.pop(key)] for a key that is present. *)
Fixpoint dict_pop (d : dict) (key : string) : dict :=
  match d with
  | [] => []
  | (k, v) :: rest =>
      if String.eqb k key then rest else (k, v) :: dict_pop rest key
  end.

Definition dict_keys (d : dict) : list string := map fst d.

(** [d[key]] as an expression: [KeyError] when the key is absent. *)
Definition getitem (d : dict) (key : string) : res (list string) :=
  match dict_get d key with
  | Some v => ret v
  | None => raise KeyError
  end.

(** [{label: [] for label in label_ids}] *)
Definition empty_groups (label_ids : list string) : dict :=
  fold_left (fun d label => dict_set d label []) label_ids [].

(** One step of the comprehension of line 130:
    [yt_ids[label].append(row[0])] when [label in row[3]]. *)
Definition collect_step (row : list string) (yt_ids : dict) (label : string)
  : res dict :=
  let! labels := index_row row 3 in
  if str_in label labels then
    let! ids := getitem yt_ids label in
    let! yt_id := index_row row 0 in
    ret (dict_set yt_ids label (ids ++ [yt_id]))
  else ret yt_ids.

(** [... for row in reader for label in label_ids if label in row[3]] *)
Definition collect (label_ids : list string) (reader : list (list string))
    (yt_ids : dict) : res dict :=
  for_each (fun d row => for_each (collect_step row) label_ids d)
           reader yt_ids.

(** The loop [for label in yt_ids] of lines 132-139.  After
    [yt_ids.pop(label)] the body still evaluates [yt_ids[label]] for the
    [print], which raises [KeyError]; the iteration therefore never
    resumes on a dictionary whose size has changed, and walking the keys
    the dictionary had on entry is exact. *)
Fixpoint report (keys : list string) (yt_ids : dict) : res dict :=
  match keys with
  | [] => ret yt_ids
  | label :: rest =>
      let! ids := getitem yt_ids label in
      let yt_ids' :=
        match ids with
        | [] => dict_pop yt_ids label
        | _ :: _ => yt_ids
        end in
      let! shown := getitem yt_ids' label in
      let! counted := getitem yt_ids' label in
      report rest yt_ids'
  end.

(** [get_yt_ids(label_ids, csv_dataset)], [reader] being the rows of the
    dataset file. *)
Definition get_yt_ids (label_ids : list string) (reader : list (list string))
  : res dict :=
  let yt_ids := empty_groups label_ids in
  let! yt_ids := collect label_ids reader yt_ids in
  report (dict_keys yt_ids) yt_ids.

(** Number of times [label] is listed in [label_ids]. *)
Fixpoint occurrences (label : string) (label_ids : list string) : nat :=
  match label_ids with
  | [] => 0
  | l :: rest =>
      (if String.eqb l label then 1 else 0) + occurrences label rest
  end.

(** What one row appends under [label]: [row[0]], once per occurrence of
    the label in [label_ids], when the label field contains the label. *)
Definition row_adds (label_ids : list string) (row : list string)
    (label : string) : list string :=
  if str_in label (nth 3 row EmptyString)
  then repeat (nth 0 row EmptyString) (occurrences label label_ids)
  else [].

(** What the comprehension appends under [label], in row order. *)
Definition collected (label_ids : list string) (reader : list (list string))
    (label : string) : list string :=
  flat_map (fun row => row_adds label_ids row label) reader.

(** ** File organizer: [sort_files] *)

(** *** The file system

    A path string denotes the list of its components between slashes,
    without the empty ones and the [.] ones (so [a//b], [./a/b] and
    [a/./b/] are the directory [a/b]); the working directory is the root
    of the tree and there are no links.  The component [..] is not
    interpreted: the model is that of the [os] functions on path strings
    without it ([plain_path]), on a tree in which every entry lies in a
    directory and none is named [.] or [..] ([real_fs]); the statements
    about what [sort_files] does to the tree assume both, and labels whose
    last component is an entry name ([plain_label]).  The file system maps
    the path of every entry below the root to a regular file with its
    content or to a directory. *)

Inductive node : Type :=
  | File (content : string)
  | Dir.

Definition flush (cur : string) : list string :=
  match cur with
  | EmptyString => []
  | String _ _ => [cur]
  end.

Fixpoint split_path (s cur : string) : list string :=
  match s with
  | EmptyString => flush cur
  | String c rest =>
      if Ascii.eqb c "/" then flush cur ++ split_path rest EmptyString
      else split_path rest (cur +:+ String c EmptyString)
  end.

(** The components of a path string: the non-empty pieces between
    slashes. *)
Definition components (name : string) : list string :=
  split_path name EmptyString.

(** The path a string denotes from the working directory.  A [.] component
    stands for the directory reached so far and adds nothing. *)
Definition path_of (name : string) : list string :=
  List.filter (fun c => negb (String.eqb c ".")) (components name).

(** A component of such a path: not empty, not [.], no slash. *)
Definition proper (name : string) : bool :=
  negb (String.eqb name EmptyString) && negb (String.eqb name ".") &&
  forallb (fun c => negb (Ascii.eqb c "/")) (list_ascii_of_string name).

Definition wf_fs (st : gmap (list string) node) : Prop :=
  forall p, is_Some (st !! p) -> forallb proper p = true.

(** The root is a directory. *)
Definition node_at (st : gmap (list string) node) (p : list string)
  : option node :=
  match p with
  | [] => Some Dir
  | _ :: _ => st !! p
  end.

(** The error of reaching an entry that is not there: a regular file on
    the way, or a missing entry. *)
Fixpoint absent (st : gmap (list string) node) (above rest : list string)
  : exn :=
  match rest with
  | [] => FileNotFoundError
  | c :: rest' =>
      match st !! (above ++ [c]) with
      | Some Dir => absent st (above ++ [c]) rest'
      | Some (File _) => NotADirectoryError
      | None => FileNotFoundError
      end
  end.

(** [os.path.exists(name)], for a name that ends in an entry name or
    reaches a directory. *)
Definition path_exists (st : gmap (list string) node) (name : string) : bool :=
  match node_at st (path_of name) with
  | Some _ => true
  | None => false
  end.

(** [mkdir] along a path: missing directories are created from the top;
    a regular file on the way makes the next [mkdir] fail. *)
Fixpoint mkdir_chain (st : gmap (list string) node) (above rest : list string)
  : res (gmap (list string) node) :=
  match rest with
  | [] => ret st
  | c :: rest' =>
      let p := above ++ [c] in
      match st !! p with
      | None => mkdir_chain (<[p := Dir]> st) p rest'
      | Some Dir => mkdir_chain st p rest'
      | Some (File _) => raise NotADirectoryError
      end
  end.

(** [os.makedirs(name)] with [exist_ok=False], for a name whose last
    component is an entry name: the missing directories are created from
    the top, [head] before [tail] as the recursion of [os.makedirs] does,
    and a [.] on the way creates nothing. *)
Definition makedirs (st : gmap (list string) node) (name : string)
  : res (gmap (list string) node) :=
  match node_at st (path_of name) with
  | Some _ => raise FileExistsError
  | None => mkdir_chain st [] (path_of name)
  end.

(** The name under which [p] is an entry of the directory [d], if it is one. *)
Definition child_name (d p : list string) : option string :=
  match drop (length d) p with
  | [name] => if bool_decide (take (length d) p = d) then Some name else None
  | _ => None
  end.

Definition entries (st : gmap (list string) node) (d : list string)
  : gset string :=
  set_omap (child_name d) (dom st).

(** [os.listdir(name)]: the names of the entries of the directory, each
    once, not descending into subdirectories.  Python leaves the order
    unspecified; the model lists them in the order of [elements]. *)
Definition listdir (st : gmap (list string) node) (name : string)
  : res (list string) :=
  match name with
  | EmptyString => raise FileNotFoundError
  | String _ _ =>
      match node_at st (path_of name) with
      | Some Dir => ret (elements (entries st (path_of name)))
      | Some (File _) => raise NotADirectoryError
      | None => raise (absent st [] (path_of name))
      end
  end.

(** [shutil.copyfile(src, dst)] on resolved paths: refuses to copy a file
    onto itself, reads the regular file [s], and creates or overwrites the
    regular file [d] in an existing directory.  The source is left in
    place. *)
Definition copy_path (st : gmap (list string) node) (s d : list string)
  : res (gmap (list string) node) :=
  match node_at st s with
  | None => raise (absent st [] s)
  | Some from =>
      if bool_decide (s = d) then raise SameFileError
      else
        match from with
        | Dir => raise IsADirectoryError
        | File content =>
            match node_at st d with
            | Some Dir => raise IsADirectoryError
            | _ =>
                match node_at st (removelast d) with
                | Some Dir => ret (<[d := File content]> st)
                | Some (File _) => raise NotADirectoryError
                | None => raise (absent st [] (removelast d))
                end
            end
        end
  end.

Definition copyfile (st : gmap (list string) node) (src dst : string)
  : res (gmap (list string) node) :=
  copy_path st (path_of src) (path_of dst).

(** *** The two loops of [sort_files] *)

(** [for label in yt_ids: if not os.path.exists(...): os.makedirs(...)] *)
Definition make_label_dirs (yt_ids : dict) (dst_dir : string)
    (st : gmap (list string) node) : res (gmap (list string) node) :=
  for_each (fun st label =>
              if path_exists st (dst_dir +:+ "/" +:+ label) then ret st
              else makedirs st (dst_dir +:+ "/" +:+ label))
           (dict_keys yt_ids) st.

(** The body of the inner loop, for one file and one item of [yt_ids]. *)
Definition copy_if_listed (file_dir dst_dir file : string)
    (st : gmap (list string) node) (item : string * list string)
  : res (gmap (list string) node) :=
  let (label, yt_id_list) := item in
  if existsb (fun yt_id => str_in yt_id file) yt_id_list then
    let src := file_dir +:+ "/" +:+ file in
    let dst := dst_dir +:+ "/" +:+ label +:+ "/" +:+ file in
    copyfile st src dst
  else ret st.

(** [for file in files: for label, yt_id_list in yt_ids.items(): ...] *)
Definition copy_matching (yt_ids : dict) (file_dir dst_dir : string)
    (files : list string) (st : gmap (list string) node)
  : res (gmap (list string) node) :=
  for_each (fun st file =>
              for_each (copy_if_listed file_dir dst_dir file) yt_ids st)
           files st.

(** [dst_dir = file_dir if dst_dir is None else dst_dir] *)
Definition default_dst (file_dir : string) (dst_dir : option string) : string :=
  match dst_dir with
  | None => file_dir
  | Some d => d
  end.

(** [sort_files(yt_ids, file_dir, dst_dir=None)] as a transformation of the
    file system. *)
Definition sort_files (yt_ids : dict) (file_dir : string)
    (dst_dir : option string) (st : gmap (list string) node)
  : res (gmap (list string) node) :=
  let dst_dir := default_dst file_dir dst_dir in
  let! st := make_label_dirs yt_ids dst_dir st in
  let! files := listdir st file_dir in
  copy_matching yt_ids file_dir dst_dir files st.

Definition scenario_fs : gmap (list string) node :=
  <[ ["source"; "abc123_0.wav"] := File "RIFF-wave-data" ]>
    (<[ ["source"; "other_5.wav"] := File "other-data" ]>
      (<[ ["source"] := Dir ]> ∅)).

(** The scenario after [sort_files] with the group [Speech -> abc123]. *)
Definition scenario_sorted : gmap (list string) node :=
  <[ ["dest"; "Speech"; "abc123_0.wav"] := File "RIFF-wave-data" ]>
    (<[ ["dest"; "Speech"] := Dir ]>
      (<[ ["dest"] := Dir ]> scenario_fs)).

(** *** Vocabulary of the file-system properties *)

Definition dot_name (name : string) : bool :=
  String.eqb name "." || String.eqb name "..".

Definition no_dots (p : list string) : bool :=
  forallb (fun name => negb (dot_name name)) p.

(** A path string without [..] component; its [.] components are not
    part of the path it denotes. *)
Definition plain_path (name : string) : bool := no_dots (path_of name).

(** The string is not empty and its last character is not a slash. *)
Fixpoint ends_in_name (s : string) : bool :=
  match s with
  | EmptyString => false
  | String c EmptyString => negb (Ascii.eqb c "/")
  | String _ rest => ends_in_name rest
  end.

(** A label that names a directory below the destination: no [.] or [..]
    component, and a last component that is an entry name. *)
Definition plain_label (label : string) : bool :=
  no_dots (components label) && ends_in_name label.

(** A tree as a file system holds it: entry names are not empty, have no
    slash and are not [.] or [..], and every entry lies in a directory. *)
Definition real_fs (st : gmap (list string) node) : Prop :=
  forall p, is_Some (st !! p) ->
    forallb proper p = true /\ no_dots p = true /\
    node_at st (removelast p) = Some Dir.

Definition no_slash (s : string) : bool :=
  forallb (fun c => negb (Ascii.eqb c "/")) (list_ascii_of_string s).

(** [st'] is [st] with some directories added. *)
Definition extends (st st' : gmap (list string) node) : Prop :=
  (forall p n, st !! p = Some n -> st' !! p = Some n) /\
  (forall p n, st' !! p = Some n ->
     st !! p = Some n \/ (st !! p = None /\ n = Dir)).

(** The copies the second loop performs, as pairs of resolved source and
    destination paths, in the order of the loop. *)
Definition copy_tasks (yt_ids : dict) (file_dir dst_dir : string)
    (files : list string) : list (list string * list string) :=
  flat_map (fun file =>
    flat_map (fun item : string * list string =>
       if existsb (fun yt_id => str_in yt_id file) (snd item)
       then [(path_of (file_dir +:+ "/" +:+ file),
              path_of (dst_dir +:+ "/" +:+ fst item +:+ "/" +:+ file))]
       else [])
      yt_ids)
    files.

Definition run_copies (tasks : list (list string * list string))
    (st : gmap (list string) node) : res (gmap (list string) node) :=
  for_each (fun st task => copy_path st (fst task) (snd task)) tasks st.

(** All copies read from the directory [fd] and keep the entry name. *)
Definition shaped (fd : list string)
    (tasks : list (list string * list string)) : Prop :=
  forall s d, In (s, d) tasks ->
    exists file tgt, s = fd ++ [file] /\ d = tgt ++ [file].

(** ** The output file of [create_csv] and the caller [find] *)

(** [create_csv] together with the file it writes.  [old] is what
    [new_csv_path] holds before the call, as the list of rows in it
    ([None]: no such file); the result pairs what the file holds afterwards
    with the path returned or the exception raised.  Both label lookups
    (lines 55-56) come before the [with] statement; [open(new_csv_path,
    'w')] empties the file before the comprehension runs, and
    [writer.writerows] then writes the rows.  [dataset] is the list of
    rows the reader yields: the dataset file exists and is another file
    than [new_csv_path], and the directory of the output file exists. *)
Definition create_csv_file (table : list LabelIndexEntry) (class_name : string)
    (strict : bool) (blacklist : list string) (dataset : list (list string))
    (dst_dir : string) (old : option (list (list string)))
  : option (list (list string)) * res string :=
  let new_csv_path := dst_dir +:+ class_name +:+ ".csv" in
  match get_label_id table class_name strict with
  | inl e => (old, inl e)
  | inr label_id =>
      match map_res (fun blacklisted_class =>
                       let! ids := get_label_id table blacklisted_class strict in
                       ret (PList ids))
                    blacklist with
      | inl e => (old, inl e)
      | inr blacklisted_ids =>
          match to_write dataset label_id blacklisted_ids with
          | inl e => (Some [], inl e)
          | inr rows => (Some rows, inr new_csv_path)
          end
      end
  end.

(** A call of [get_label_id] as Python binds its arguments: both
    parameters are required, so a call that passes the class name alone
    ([strict] is [None]) raises [TypeError] before the body runs. *)
Definition call_get_label_id (table : list LabelIndexEntry)
    (class_name : string) (strict : option bool) : res (list string) :=
  match strict with
  | Some strict => get_label_id table class_name strict
  | None => raise TypeError
  end.

(** [find(labels, csv_dataset, raw_audio_dir, destination_dir)]; the call
    on line 22 is [get_label_id(label)]. *)
Definition find (table : list LabelIndexEntry) (labels : list string)
    (reader : list (list string)) (raw_audio_dir destination_dir : string)
    (st : gmap (list string) node) : res (gmap (list string) node) :=
  for_each (fun st label =>
              let! class_id := call_get_label_id table label None in
              let! youtube_id := get_yt_ids class_id reader in
              sort_files youtube_id raw_audio_dir (Some destination_dir) st)
           labels st.

(** The scenario after [sort_files] with a second label, [Music], none of
    whose identifiers occurs in a file name. *)
Definition scenario_two_labels : gmap (list string) node :=
  <[ ["dest"; "Music"] := Dir ]> scenario_sorted.

(** * Properties *)

(** ** The error monad *)

Lemma bind_inr {A B : Type} (m : res A) (k : A -> res B) (b : B) :
  bind m k = inr b -> exists a, m = inr a /\ k a = inr b.
Proof. destruct m as [e | a]; simpl; [discriminate | eauto]. Qed.

Ltac bind_inv H :=
  let a := fresh "a" in
  let Ha := fresh "Ha" in
  apply bind_inr in H; destruct H as (a & Ha & H).

(** ** Strings *)

Lemma prefix_refl (s : string) : String.prefix s s = true.
Proof.
  induction s as [| c s IH]; simpl; [reflexivity |].
  destruct (ascii_dec c c); [assumption | contradiction].
Qed.

Lemma str_in_refl (s : string) : str_in s s = true.
Proof.
  destruct s as [| c s]; [reflexivity |].
  change (str_in (String c s) (String c s))
    with (String.prefix (String c s) (String c s) || str_in (String c s) s).
  rewrite prefix_refl. reflexivity.
Qed.

(** ** Label resolver *)

Lemma label_ids_strict_spec table class_name i :
  In i (label_ids_of table class_name true) <->
  exists row, In row table /\ mid row = i /\
              lower class_name = lower (display_name row).
Proof.
  unfold label_ids_of. rewrite in_map_iff. split.
  - intros (row & Hid & Hin). apply filter_In in Hin as [Hin Heq].
    apply String.eqb_eq in Heq. eauto.
  - intros (row & Hin & Hid & Heq). exists row. split; [assumption |].
    apply filter_In. split; [assumption |]. apply String.eqb_eq. assumption.
Qed.

Lemma label_ids_loose_spec table class_name i :
  In i (label_ids_of table class_name false) <->
  exists row, In row table /\ mid row = i /\
              str_in (lower class_name) (lower (display_name row)) = true.
Proof.
  unfold label_ids_of. rewrite in_map_iff. split.
  - intros (row & Hid & Hin). apply filter_In in Hin as [Hin Hsub]. eauto.
  - intros (row & Hin & Hid & Hsub). exists row. split; [assumption |].
    apply filter_In. split; assumption.
Qed.

Lemma label_ids_strict_loose table class_name i :
  In i (label_ids_of table class_name true) ->
  In i (label_ids_of table class_name false).
Proof.
  rewrite label_ids_strict_spec, label_ids_loose_spec.
  intros (row & Hin & Hid & Heq). exists row. repeat split; try assumption.
  rewrite Heq. apply str_in_refl.
Qed.

(** The resolver returns exactly when the match list has two or more
    members, and raises [TypeError] otherwise. *)
Lemma get_label_id_cases table class_name strict :
  (get_label_id table class_name strict
     = inr (label_ids_of table class_name strict) /\
   2 <= length (label_ids_of table class_name strict)) \/
  (get_label_id table class_name strict = inl TypeError /\
   length (label_ids_of table class_name strict) <= 1).
Proof.
  unfold get_label_id.
  destruct (Nat.ltb_spec 1 (length (label_ids_of table class_name strict)));
    [left | right]; split; auto; lia.
Qed.

(** C3.  A class name that matches no entry of the label table does not
    come back as an empty identifier list: [get_label_id] raises
    [TypeError] while building the message of its last [print], for either
    setting of [strict]. *)
Theorem get_label_id_no_match_raises :
  label_ids_of fixture_table "saxophone" true = [] /\
  label_ids_of fixture_table "saxophone" false = [] /\
  get_label_id fixture_table "saxophone" true = inl TypeError /\
  get_label_id fixture_table "saxophone" false = inl TypeError /\
  (forall class_name strict, get_label_id [] class_name strict = inl TypeError).
Proof.
  repeat split; try reflexivity.
  intros class_name [|]; reflexivity.
Qed.

(** C4.  With a single entry named as the class, the strict match list is
    that entry's identifier, yet [get_label_id] raises [TypeError] instead
    of returning it; the non-strict call raises likewise. *)
Theorem get_label_id_single_match_raises :
  let table := [ {| index := "0"; mid := "/m/09x0r"; display_name := "Speech" |} ] in
  label_ids_of table "speech" true = ["/m/09x0r"] /\
  get_label_id table "speech" true = inl TypeError /\
  label_ids_of table "spee" false = ["/m/09x0r"] /\
  get_label_id table "spee" false = inl TypeError.
Proof. repeat split; reflexivity. Qed.

(** C5.  On the two-entry table, ["speech"] (two matches) returns both
    identifiers, but ["female speech"] (one match) raises [TypeError]
    instead of returning [["/m/02zsn"]]. *)
Theorem get_label_id_fixture :
  label_ids_of fixture_table "female speech" false = ["/m/02zsn"] /\
  get_label_id fixture_table "female speech" false = inl TypeError /\
  get_label_id fixture_table "speech" false = inr ["/m/09x0r"; "/m/02zsn"].
Proof. repeat split; reflexivity. Qed.

(** ** Dataset filter *)

(** C1.  The scenario row is kept under an empty blacklist.  Under the
    blacklist of the scenario it is not excluded: with [blacklisted_ids]
    as [create_csv] builds it (a list of lists) the comprehension raises
    [TypeError] on the row, and with a flat list of identifiers the
    intersection with the characters of the label field is empty, so the
    row is kept.  The same happens through [create_csv] when the class
    ["music"], which resolves to [/m/0dgw9r] and [/m/04rlf], is
    blacklisted. *)
Theorem to_write_blacklist_scenario :
  to_write [scenario_row] ["/m/09x0r"] [] = inr [scenario_row] /\
  to_write [scenario_row] ["/m/09x0r"] [PList ["/m/0dgw9r"]] = inl TypeError /\
  to_write [scenario_row] ["/m/09x0r"] [PStr "/m/0dgw9r"] = inr [scenario_row] /\
  create_csv music_table "speech" false [] [scenario_row]
    = inr [scenario_row] /\
  create_csv music_table "speech" false ["music"] [scenario_row]
    = inl TypeError.
Proof. repeat split; reflexivity. Qed.

(** C6.  With the blacklist equal to the wanted identifiers the output is
    not the empty sequence: a row that carries a wanted identifier makes
    the comprehension raise [TypeError] (list of lists, also through
    [create_csv] with the wanted class blacklisted), or is kept (flat
    list). *)
Theorem to_write_blacklist_equals_wanted :
  let row := ["abc123"; "0"; "10"; "/m/09x0r"] in
  to_write [row] ["/m/09x0r"] [PList ["/m/09x0r"]] = inl TypeError /\
  to_write [row] ["/m/09x0r"] [PStr "/m/09x0r"] = inr [row] /\
  create_csv fixture_table "speech" false ["speech"] [row] = inl TypeError /\
  create_csv fixture_table "speech" false [] [row] = inr [row].
Proof. repeat split; reflexivity. Qed.

Lemma keep_clear label row labels blacklisted_ids :
  nth_error row 3 = Some labels ->
  set_intersection (chars_of labels) blacklisted_ids = inr [] ->
  keep label row blacklisted_ids = inr (str_in label labels).
Proof.
  intros Hrow Hclear. unfold keep, index_row. rewrite Hrow. simpl.
  destruct (str_in label labels); [| reflexivity].
  rewrite Hclear. reflexivity.
Qed.

Lemma copies_of_clear row labels label_id blacklisted_ids :
  nth_error row 3 = Some labels ->
  set_intersection (chars_of labels) blacklisted_ids = inr [] ->
  copies_of row label_id blacklisted_ids
    = inr (repeat row (matching label_id labels)).
Proof.
  intros Hrow Hclear. unfold matching.
  induction label_id as [| label rest IH]; [reflexivity |].
  simpl. rewrite (keep_clear _ _ _ _ Hrow Hclear). simpl. rewrite IH. simpl.
  destruct (str_in label labels); reflexivity.
Qed.

Lemma copies_of_same row label_id blacklisted_ids here :
  copies_of row label_id blacklisted_ids = inr here ->
  forall x, In x here -> x = row.
Proof.
  revert here. induction label_id as [| label rest IH]; simpl; intros here H.
  - injection H as <-. intros x [].
  - bind_inv H. bind_inv H. injection H as <-.
    intros x Hx. destruct a; [destruct Hx as [<- | Hx] |]; eauto.
Qed.

Lemma count_occ_copies row label_id blacklisted_ids here other :
  copies_of row label_id blacklisted_ids = inr here ->
  other <> row ->
  count_occ row_eq_dec here other = 0.
Proof.
  intros H Hne. apply count_occ_not_In. intros Hin.
  apply Hne. eapply copies_of_same; eassumption.
Qed.

Lemma to_write_count reader label_id blacklisted_ids out row labels :
  to_write reader label_id blacklisted_ids = inr out ->
  nth_error row 3 = Some labels ->
  set_intersection (chars_of labels) blacklisted_ids = inr [] ->
  count_occ row_eq_dec out row
    = count_occ row_eq_dec reader row * matching label_id labels.
Proof.
  intros H Hrow Hclear. revert out H.
  induction reader as [| r rest IH]; simpl; intros out H.
  - injection H as <-. reflexivity.
  - bind_inv H. bind_inv H. injection H as <-.
    rewrite count_occ_app, (IH _ Ha0).
    destruct (row_eq_dec r row) as [-> | Hne].
    + rewrite (copies_of_clear _ _ _ _ Hrow Hclear) in Ha.
      injection Ha as <-. rewrite count_occ_repeat_eq by reflexivity. lia.
    + rewrite (count_occ_copies _ _ _ _ _ Ha) by congruence. lia.
Qed.

Lemma to_write_no_blacklist reader label_id :
  Forall (fun row => 4 <= length row) reader ->
  exists out, to_write reader label_id [] = inr out.
Proof.
  induction 1 as [| row rest Hrow _ [more IH]]; simpl; [eauto |].
  destruct (nth_error row 3) as [labels |] eqn:E.
  - rewrite (copies_of_clear _ _ _ _ E) by reflexivity. simpl.
    rewrite IH. simpl. eauto.
  - apply nth_error_None in E. lia.
Qed.

Lemma matching_positive label_id labels :
  0 < matching label_id labels <->
  exists label, In label label_id /\ str_in label labels = true.
Proof.
  unfold matching. split.
  - intros H.
    destruct (List.filter (fun label => str_in label labels) label_id)
      as [| label rest] eqn:E; [simpl in H; lia |].
    assert (Hin : In label (List.filter (fun label => str_in label labels)
                              label_id)) by (rewrite E; left; reflexivity).
    apply filter_In in Hin. eauto.
  - intros (label & Hin & Hsub).
    assert (Hin' : In label (List.filter (fun label => str_in label labels)
                               label_id)) by (apply filter_In; auto).
    destruct (List.filter (fun label => str_in label labels) label_id);
      [contradiction | simpl; lia].
Qed.

(** With an empty blacklist the rows written are the input rows whose
    label field contains a wanted identifier. *)
Lemma to_write_no_blacklist_members reader label_id out row labels :
  to_write reader label_id [] = inr out ->
  nth_error row 3 = Some labels ->
  (In row out <->
   In row reader /\
   exists label, In label label_id /\ str_in label labels = true).
Proof.
  intros Hout Hrow.
  pose proof (to_write_count _ _ _ _ _ _ Hout Hrow eq_refl) as Hcount.
  rewrite <- matching_positive.
  rewrite (count_occ_In row_eq_dec out), (count_occ_In row_eq_dec reader).
  rewrite Hcount.
  destruct (count_occ row_eq_dec reader row), (matching label_id labels);
    simpl; lia.
Qed.

(** C10.  When the blacklist is empty the filter returns, and in every
    run that returns, a row that passes the blacklist test is written
    once per occurrence in the input and per wanted identifier contained
    in its label field: two or more matching identifiers give two or more
    copies, and exactly one copy means exactly one matching identifier. *)
Theorem to_write_once_per_matching_label reader label_id :
  Forall (fun row => 4 <= length row) reader ->
  (exists out, to_write reader label_id [] = inr out) /\
  forall blacklisted_ids out row labels,
    to_write reader label_id blacklisted_ids = inr out ->
    nth_error row 3 = Some labels ->
    set_intersection (chars_of labels) blacklisted_ids = inr [] ->
    count_occ row_eq_dec out row
      = count_occ row_eq_dec reader row * matching label_id labels /\
    (In row reader -> 2 <= matching label_id labels ->
     2 <= count_occ row_eq_dec out row) /\
    (count_occ row_eq_dec out row = 1 -> matching label_id labels = 1).
Proof.
  intros Hwf. split; [apply to_write_no_blacklist; assumption |].
  intros blacklisted_ids out row labels Hout Hrow Hclear.
  pose proof (to_write_count _ _ _ _ _ _ Hout Hrow Hclear) as Hcount.
  split; [assumption |]. split.
  - intros Hin Htwo.
    apply (count_occ_In row_eq_dec) in Hin. rewrite Hcount.
    destruct (count_occ row_eq_dec reader row) as [| n]; [lia |].
    simpl. lia.
  - intros Hone. rewrite Hcount in Hone.
    destruct (count_occ row_eq_dec reader row) as [| [| n]];
      destruct (matching label_id labels) as [| [| m]]; simpl in Hone; lia.
Qed.

Lemma to_write_once_per_matching_label_witness :
  let row := ["abc123"; "0"; "10"; "/m/09x0r,/m/0dgw9r"] in
  let reader := [row; ["xyz789"; "30"; "40"; "/m/04rlf"]] in
  let label_id := ["/m/09x0r"; "/m/0dgw9r"] in
  to_write reader label_id [] = inr [row; row] /\
  count_occ row_eq_dec [row; row] row
    = count_occ row_eq_dec reader row * matching label_id "/m/09x0r,/m/0dgw9r".
Proof.
  intros row reader label_id. split; [reflexivity |].
  assert (Hwf : Forall (fun r : list string => 4 <= length r) reader)
    by (repeat constructor).
  destruct (to_write_once_per_matching_label reader label_id Hwf) as [_ Hall].
  destruct (Hall [] [row; row] row "/m/09x0r,/m/0dgw9r"
              eq_refl eq_refl eq_refl) as [Hcount _].
  exact Hcount.
Defined.

(** ** Identifier grouper *)

Lemma dict_get_set d key value l :
  dict_get (dict_set d key value) l
    = if String.eqb key l then Some value else dict_get d l.
Proof.
  induction d as [| [k v] rest IH]; simpl.
  - destruct (String.eqb key l); reflexivity.
  - destruct (String.eqb k key) eqn:Ek; simpl.
    + apply String.eqb_eq in Ek. subst k.
      destruct (String.eqb key l); reflexivity.
    + destruct (String.eqb k l) eqn:El; [| exact IH].
      apply String.eqb_eq in El. subst k. rewrite String.eqb_sym, Ek.
      reflexivity.
Qed.

Lemma dict_keys_set d key value :
  is_Some (dict_get d key) ->
  dict_keys (dict_set d key value) = dict_keys d.
Proof.
  induction d as [| [k v] rest IH]; simpl; intros [x Hx]; [discriminate |].
  destruct (String.eqb k key); simpl; [reflexivity |].
  f_equal. apply IH. eauto.
Qed.

Lemma dict_get_keys d key :
  is_Some (dict_get d key) <-> In key (dict_keys d).
Proof.
  induction d as [| [k v] rest IH]; simpl.
  - split; [intros [x Hx]; discriminate | intros []].
  - destruct (String.eqb k key) eqn:Ek.
    + apply String.eqb_eq in Ek. split; eauto.
    + apply String.eqb_neq in Ek. rewrite IH. split; [tauto |].
      intros [Heq | Hin]; [contradiction | assumption].
Qed.

Lemma dict_get_empty_groups label_ids l :
  dict_get (empty_groups label_ids) l
    = if existsb (String.eqb l) label_ids then Some [] else None.
Proof.
  unfold empty_groups.
  assert (H : forall d,
    dict_get (fold_left (fun d label => dict_set d label []) label_ids d) l
      = if existsb (String.eqb l) label_ids then Some [] else dict_get d l).
  { induction label_ids as [| k rest IH]; intros d; simpl; [reflexivity |].
    rewrite IH, dict_get_set, (String.eqb_sym l k).
    destruct (existsb (String.eqb l) rest), (String.eqb k l); reflexivity. }
  apply H.
Qed.

Lemma index_row_nth row i field :
  index_row row i = inr field -> nth i row EmptyString = field.
Proof.
  unfold index_row. destruct (nth_error row i) eqn:E; [| discriminate].
  intros [= <-]. apply nth_error_nth. assumption.
Qed.

Lemma collect_step_spec row d label d' :
  collect_step row d label = inr d' ->
  dict_keys d' = dict_keys d /\
  forall l, dict_get d' l
    = option_map (fun v => v ++ row_adds [label] row l) (dict_get d l).
Proof.
  unfold collect_step, row_adds. intros H. bind_inv H.
  apply index_row_nth in Ha. rewrite Ha.
  destruct (str_in label a) eqn:Ein.
  - bind_inv H. bind_inv H. injection H as <-.
    apply index_row_nth in Ha1. rewrite Ha1.
    unfold getitem in Ha0.
    destruct (dict_get d label) as [v |] eqn:Eg; [| discriminate].
    injection Ha0 as <-.
    split; [apply dict_keys_set; rewrite Eg; eauto |].
    intros l. rewrite dict_get_set. simpl.
    destruct (String.eqb label l) eqn:El.
    + apply String.eqb_eq in El. subst l. rewrite Eg, Ein. reflexivity.
    + destruct (dict_get d l) as [w |]; simpl; [| reflexivity].
      destruct (str_in l a); simpl; rewrite app_nil_r; reflexivity.
  - injection H as <-. split; [reflexivity |]. intros l.
    destruct (dict_get d l) as [w |]; simpl; [| reflexivity].
    destruct (String.eqb label l) eqn:El.
    + apply String.eqb_eq in El. subst l. rewrite Ein, app_nil_r. reflexivity.
    + destruct (str_in l a); simpl; rewrite app_nil_r; reflexivity.
Qed.

Lemma row_adds_cons label label_ids row l :
  row_adds [label] row l ++ row_adds label_ids row l
    = row_adds (label :: label_ids) row l.
Proof.
  unfold row_adds. destruct (str_in l (nth 3 row EmptyString)); [| reflexivity].
  rewrite <- repeat_app. simpl. rewrite Nat.add_0_r. reflexivity.
Qed.

Lemma collect_row_spec row label_ids d d' :
  for_each (collect_step row) label_ids d = inr d' ->
  dict_keys d' = dict_keys d /\
  forall l, dict_get d' l
    = option_map (fun v => v ++ row_adds label_ids row l) (dict_get d l).
Proof.
  revert d. induction label_ids as [| label rest IH]; simpl; intros d H.
  - injection H as <-. split; [reflexivity |]. intros l.
    unfold row_adds. simpl.
    destruct (dict_get d l); simpl; [| reflexivity].
    destruct (str_in l (nth 3 row EmptyString)); rewrite app_nil_r; reflexivity.
  - bind_inv H. apply collect_step_spec in Ha as [Hk Hg].
    apply IH in H as [Hk' Hg']. split; [congruence |].
    intros l. rewrite Hg', Hg.
    destruct (dict_get d l); simpl; [| reflexivity].
    rewrite <- app_assoc, row_adds_cons. reflexivity.
Qed.

Lemma collect_spec label_ids reader d d' :
  collect label_ids reader d = inr d' ->
  dict_keys d' = dict_keys d /\
  forall l, dict_get d' l
    = option_map (fun v => v ++ collected label_ids reader l) (dict_get d l).
Proof.
  unfold collect. revert d.
  induction reader as [| row rest IH]; simpl; intros d H.
  - injection H as <-. split; [reflexivity |]. intros l.
    destruct (dict_get d l); simpl; [rewrite app_nil_r |]; reflexivity.
  - bind_inv H. apply collect_row_spec in Ha as [Hk Hg].
    apply IH in H as [Hk' Hg']. split; [congruence |].
    intros l. rewrite Hg', Hg.
    destruct (dict_get d l); simpl; [| reflexivity].
    rewrite <- app_assoc. reflexivity.
Qed.

Lemma dict_get_None_keys d key :
  dict_get d key = None <-> ~ In key (dict_keys d).
Proof.
  rewrite <- dict_get_keys. destruct (dict_get d key); split; intros H.
  - discriminate.
  - exfalso. apply H. eauto.
  - intros [x Hx]. discriminate.
  - reflexivity.
Qed.

Lemma dict_get_pop d key :
  List.NoDup (dict_keys d) -> dict_get (dict_pop d key) key = None.
Proof.
  induction d as [| [k v] rest IH]; simpl; intros Hnd; [reflexivity |].
  inversion Hnd as [| ? ? Hnotin Hrest]; subst.
  destruct (String.eqb k key) eqn:Ek.
  - apply String.eqb_eq in Ek. subst k.
    apply dict_get_None_keys. exact Hnotin.
  - simpl. rewrite Ek. apply IH. assumption.
Qed.

Lemma dict_keys_set_absent d key value :
  dict_get d key = None ->
  dict_keys (dict_set d key value) = dict_keys d ++ [key].
Proof.
  induction d as [| [k v] rest IH]; simpl; intros H; [reflexivity |].
  destruct (String.eqb k key); [discriminate |]. simpl. f_equal. auto.
Qed.

Lemma dict_set_nodup d key value :
  List.NoDup (dict_keys d) -> List.NoDup (dict_keys (dict_set d key value)).
Proof.
  intros Hnd. destruct (dict_get d key) as [v |] eqn:Eg.
  - rewrite dict_keys_set by (rewrite Eg; eauto). assumption.
  - rewrite dict_keys_set_absent by assumption.
    apply dict_get_None_keys in Eg.
    apply NoDup_ListNoDup. apply NoDup_app. repeat split.
    + apply NoDup_ListNoDup. assumption.
    + intros x Hx Hk. apply list_elem_of_In in Hx.
      apply list_elem_of_In in Hk. destruct Hk as [<- | []]. contradiction.
    + apply NoDup_ListNoDup. repeat constructor. intros [].
Qed.

Lemma empty_groups_nodup label_ids :
  List.NoDup (dict_keys (empty_groups label_ids)).
Proof.
  unfold empty_groups.
  assert (H : forall d, List.NoDup (dict_keys d) ->
    List.NoDup (dict_keys
      (fold_left (fun d label => dict_set d label []) label_ids d))).
  { induction label_ids as [| k rest IH]; intros d Hd; simpl; [assumption |].
    apply IH, dict_set_nodup, Hd. }
  apply H. constructor.
Qed.

(** A run of the reporting loop that returns has popped nothing: every
    key it visited holds a non-empty list. *)
Lemma report_returns keys d d' :
  List.NoDup (dict_keys d) ->
  report keys d = inr d' ->
  d' = d /\
  forall label, In label keys ->
    exists ids, dict_get d label = Some ids /\ ids <> [].
Proof.
  intros Hnd. revert d'. induction keys as [| k rest IH]; simpl; intros d' H.
  - injection H as <-. split; [reflexivity |]. intros label [].
  - bind_inv H. unfold getitem in Ha.
    destruct (dict_get d k) as [v |] eqn:Eg; [| discriminate].
    injection Ha as <-. destruct v as [| x v].
    + bind_inv H. unfold getitem in Ha.
      rewrite dict_get_pop in Ha by assumption. discriminate.
    + bind_inv H. bind_inv H. apply IH in H as [-> Hall].
      split; [reflexivity |].
      intros label [<- | Hin]; [| auto].
      exists (x :: v). split; [assumption | discriminate].
Qed.

(** A key whose list is empty stops the reporting loop with [KeyError]. *)
Lemma report_raises keys d label :
  List.NoDup (dict_keys d) ->
  (forall k, In k keys -> is_Some (dict_get d k)) ->
  In label keys ->
  dict_get d label = Some [] ->
  report keys d = inl KeyError.
Proof.
  intros Hnd. induction keys as [| k rest IH]; simpl; intros Hall Hin Hempty;
    [contradiction |].
  destruct (Hall k (or_introl eq_refl)) as [v Hv].
  unfold getitem at 1. rewrite Hv. simpl. destruct v as [| x v].
  - unfold getitem. rewrite dict_get_pop by assumption. reflexivity.
  - unfold getitem. rewrite Hv. simpl.
    destruct Hin as [-> | Hin]; [congruence |].
    apply IH; auto.
Qed.

Lemma existsb_eqb_In l label_ids :
  existsb (String.eqb l) label_ids = true <-> In l label_ids.
Proof.
  rewrite existsb_exists. split.
  - intros (x & Hin & Heq). apply String.eqb_eq in Heq. subst. assumption.
  - intros Hin. exists l. split; [assumption | apply String.eqb_refl].
Qed.

(** The dictionary after the collecting comprehension. *)
Lemma collect_groups label_ids reader d :
  collect label_ids reader (empty_groups label_ids) = inr d ->
  List.NoDup (dict_keys d) /\
  forall l, dict_get d l
    = if existsb (String.eqb l) label_ids
      then Some (collected label_ids reader l) else None.
Proof.
  intros H. apply collect_spec in H as [Hk Hg]. split.
  - rewrite Hk. apply empty_groups_nodup.
  - intros l. rewrite Hg, dict_get_empty_groups.
    destruct (existsb (String.eqb l) label_ids); reflexivity.
Qed.

(** C2.  A requested label that collects no media identifier is not
    dropped from a returned mapping: after [yt_ids.pop(label)] the loop
    body evaluates [yt_ids[label]] and [get_yt_ids] raises [KeyError],
    whether the label is the only one requested or one among labels that
    did collect identifiers. *)
Theorem get_yt_ids_no_clips_raises :
  let row := ["abc123"; "0"; "10"; "/m/09x0r"] in
  get_yt_ids ["/m/0dgw9r"] [row] = inl KeyError /\
  get_yt_ids ["/m/09x0r"; "/m/0dgw9r"] [row] = inl KeyError /\
  get_yt_ids ["/m/09x0r"] [] = inl KeyError /\
  get_yt_ids ["/m/09x0r"] [row] = inr [("/m/09x0r", ["abc123"])].
Proof. repeat split; reflexivity. Qed.

(** The general form of the defect behind C2. *)
Lemma get_yt_ids_empty_label_raises label_ids reader label d :
  collect label_ids reader (empty_groups label_ids) = inr d ->
  In label label_ids ->
  collected label_ids reader label = [] ->
  get_yt_ids label_ids reader = inl KeyError.
Proof.
  intros Hc Hin Hnone. unfold get_yt_ids. rewrite Hc. simpl.
  apply collect_groups in Hc as [Hnd Hg].
  apply (report_raises _ _ label); try assumption.
  - intros k Hk. apply dict_get_keys. assumption.
  - apply dict_get_keys. rewrite Hg.
    apply existsb_eqb_In in Hin. rewrite Hin. eauto.
  - rewrite Hg. apply existsb_eqb_In in Hin. rewrite Hin, Hnone. reflexivity.
Qed.

(** Every key of a returned mapping holds a non-empty list. *)
Lemma get_yt_ids_nonempty label_ids reader yt_ids label ids :
  get_yt_ids label_ids reader = inr yt_ids ->
  dict_get yt_ids label = Some ids ->
  ids <> [].
Proof.
  unfold get_yt_ids. intros H Hg. bind_inv H.
  apply collect_groups in Ha as [Hnd _].
  apply report_returns in H as [-> Hall]; [| assumption].
  destruct (Hall label) as (ids' & Hids & Hne).
  - apply dict_get_keys. rewrite Hg. eauto.
  - congruence.
Qed.

Lemma collect_step_returns row d label :
  4 <= length row -> is_Some (dict_get d label) ->
  exists d', collect_step row d label = inr d'.
Proof.
  intros Hlen [v Hv]. unfold collect_step, index_row, getitem.
  destruct (nth_error row 3) as [labels |] eqn:E3;
    [| apply nth_error_None in E3; lia].
  destruct (nth_error row 0) as [yt_id |] eqn:E0;
    [| apply nth_error_None in E0; lia].
  simpl. destruct (str_in label labels); [| eauto].
  rewrite Hv. simpl. eauto.
Qed.

Lemma collect_row_returns row label_ids : forall d,
  4 <= length row ->
  (forall l, In l label_ids -> is_Some (dict_get d l)) ->
  exists d', for_each (collect_step row) label_ids d = inr d'.
Proof.
  induction label_ids as [| label rest IH]; intros d Hlen Hkeys; simpl;
    [eauto |].
  assert (Hlabel : is_Some (dict_get d label))
    by (apply Hkeys; left; reflexivity).
  destruct (collect_step_returns row d label Hlen Hlabel) as [d1 Hd1].
  rewrite Hd1. simpl. apply IH; [assumption |].
  intros l Hl. apply collect_step_spec in Hd1 as [_ Hg]. rewrite Hg.
  assert (Hl' : is_Some (dict_get d l)) by (apply Hkeys; right; assumption).
  destruct Hl' as [v ->]. simpl. eauto.
Qed.

Lemma collect_returns label_ids reader : forall d,
  Forall (fun row => 4 <= length row) reader ->
  (forall l, In l label_ids -> is_Some (dict_get d l)) ->
  exists d', collect label_ids reader d = inr d'.
Proof.
  unfold collect. induction reader as [| row rest IH]; intros d Hwf Hkeys;
    simpl; [eauto |].
  inversion Hwf as [| ? ? Hrow Hrest]; subst.
  destruct (collect_row_returns row label_ids d Hrow Hkeys) as [d1 Hd1].
  rewrite Hd1. simpl. apply IH; [assumption |].
  intros l Hl. apply collect_row_spec in Hd1 as [_ Hg]. rewrite Hg.
  destruct (Hkeys l Hl) as [v ->]. simpl. eauto.
Qed.

Lemma report_total keys d :
  (forall k, In k keys -> exists ids, dict_get d k = Some ids /\ ids <> []) ->
  report keys d = inr d.
Proof.
  induction keys as [| k rest IH]; intros Hall; simpl; [reflexivity |].
  destruct (Hall k (or_introl eq_refl)) as (ids & Hids & Hne).
  unfold getitem. rewrite Hids. simpl.
  destruct ids as [| x ids]; [contradiction |]. rewrite Hids. simpl.
  apply IH. intros k' Hk'. apply Hall. right. assumption.
Qed.

(** The grouper returns when every row has its four fields and every
    requested label occurs in some row. *)
Lemma get_yt_ids_returns label_ids reader :
  Forall (fun row => 4 <= length row) reader ->
  (forall l, In l label_ids -> collected label_ids reader l <> []) ->
  exists yt_ids, get_yt_ids label_ids reader = inr yt_ids.
Proof.
  intros Hwf Hsome. unfold get_yt_ids.
  assert (Hkeys : forall l, In l label_ids ->
            is_Some (dict_get (empty_groups label_ids) l)).
  { intros l Hl. rewrite dict_get_empty_groups.
    apply existsb_eqb_In in Hl. rewrite Hl. eauto. }
  destruct (collect_returns label_ids reader (empty_groups label_ids)
              Hwf Hkeys) as [d Hd].
  rewrite Hd. simpl. exists d. apply report_total.
  apply collect_groups in Hd as [_ Hg]. intros k Hk.
  apply dict_get_keys in Hk as [v Hv]. rewrite Hg in Hv |- *.
  destruct (existsb (String.eqb k) label_ids) eqn:E; [| discriminate].
  eexists. split; [reflexivity |]. apply Hsome, existsb_eqb_In. assumption.
Qed.

(** For a label requested once, the collected list is the projection of
    the matching rows, one element per row. *)
Lemma collected_single label_ids reader label :
  occurrences label label_ids = 1 ->
  collected label_ids reader label
    = map (fun row => nth 0 row EmptyString)
          (List.filter (fun row => str_in label (nth 3 row EmptyString))
                       reader).
Proof.
  intros Hone. unfold collected, row_adds. rewrite Hone.
  induction reader as [| row rest IH]; [reflexivity |].
  cbn [flat_map List.filter].
  destruct (str_in label (nth 3 row EmptyString)); cbn [map repeat app];
    [f_equal |]; exact IH.
Qed.

(** C8 (as stated).  Two matching rows with the same media identifier:
    the list under the label holds the identifier twice. *)
Lemma get_yt_ids_keeps_duplicates :
  let reader := [ ["abc123"; "0"; "10"; "/m/09x0r"];
                  ["abc123"; "30"; "40"; "/m/09x0r"] ] in
  exists yt_ids ids,
    get_yt_ids ["/m/09x0r"] reader = inr yt_ids /\
    dict_get yt_ids "/m/09x0r" = Some ids /\
    ~ List.NoDup ids.
Proof.
  exists [("/m/09x0r", ["abc123"; "abc123"])], ["abc123"; "abc123"].
  repeat split. intros Hnd. inversion Hnd as [| ? ? Hnotin _]; subst.
  apply Hnotin. left. reflexivity.
Qed.

(** C8 (amended).  Each value of a returned mapping is the list of the
    media identifiers of the rows whose label field contains the key, in
    row order, one occurrence per matching row and per occurrence of the
    key among the requested labels; repeated identifiers are kept. *)
Theorem get_yt_ids_lists label_ids reader yt_ids label ids :
  get_yt_ids label_ids reader = inr yt_ids ->
  dict_get yt_ids label = Some ids ->
  In label label_ids /\ ids = collected label_ids reader label.
Proof.
  unfold get_yt_ids. intros H Hg. bind_inv H.
  apply collect_groups in Ha as [Hnd Hget].
  apply report_returns in H as [-> _]; [| assumption].
  rewrite Hget in Hg.
  destruct (existsb (String.eqb label) label_ids) eqn:E; [| discriminate].
  apply existsb_eqb_In in E. split; [assumption | congruence].
Qed.

Lemma get_yt_ids_lists_witness :
  let reader := [ ["abc123"; "0"; "10"; "/m/09x0r"];
                  ["abc123"; "30"; "40"; "/m/09x0r"];
                  ["xyz789"; "0"; "10"; "/m/04rlf"] ] in
  get_yt_ids ["/m/09x0r"] reader = inr [("/m/09x0r", ["abc123"; "abc123"])] /\
  In "/m/09x0r" ["/m/09x0r"] /\
  ["abc123"; "abc123"] = collected ["/m/09x0r"] reader "/m/09x0r".
Proof.
  intros reader. split; [reflexivity |].
  exact (get_yt_ids_lists ["/m/09x0r"] reader
           [("/m/09x0r", ["abc123"; "abc123"])] "/m/09x0r"
           ["abc123"; "abc123"] eq_refl eq_refl).
Defined.

(** ** Paths *)

Lemma append_cons (c : ascii) (s t : string) :
  String c s +:+ t = String c (s +:+ t).
Proof. reflexivity. Qed.

Lemma append_nil_r (s : string) : s +:+ EmptyString = s.
Proof.
  induction s as [| c s IH]; [reflexivity |].
  rewrite append_cons, IH. reflexivity.
Qed.

Lemma append_assoc (a b c : string) : (a +:+ b) +:+ c = a +:+ (b +:+ c).
Proof.
  induction a as [| x a IH]; [reflexivity |].
  rewrite !append_cons, IH. reflexivity.
Qed.

Lemma split_path_app (a b cur : string) :
  split_path (a +:+ String "/" b) cur
    = split_path a cur ++ split_path b EmptyString.
Proof.
  revert cur. induction a as [| c a IH]; intros cur.
  - reflexivity.
  - rewrite append_cons. simpl.
    destruct (Ascii.eqb c "/"); rewrite IH; [rewrite app_assoc |]; reflexivity.
Qed.

Lemma path_of_join (a b : string) :
  path_of (a +:+ "/" +:+ b) = path_of a ++ path_of b.
Proof.
  unfold path_of, components.
  change (a +:+ "/" +:+ b) with (a +:+ String "/" b).
  rewrite split_path_app. apply List.filter_app.
Qed.

Lemma split_path_no_slash (n cur : string) :
  no_slash n = true -> split_path n cur = flush (cur +:+ n).
Proof.
  unfold no_slash. revert cur. induction n as [| c n IH]; intros cur; simpl.
  - rewrite append_nil_r. reflexivity.
  - intros H. apply andb_true_iff in H as [Hc Hn].
    apply negb_true_iff in Hc. rewrite Hc, IH by assumption.
    rewrite append_assoc. reflexivity.
Qed.

Lemma proper_spec (n : string) :
  proper n = true <-> n <> EmptyString /\ n <> "." /\ no_slash n = true.
Proof.
  unfold proper, no_slash. rewrite !andb_true_iff, !negb_true_iff.
  rewrite !String.eqb_neq. tauto.
Qed.

Lemma path_of_proper (n : string) : proper n = true -> path_of n = [n].
Proof.
  intros H. apply proper_spec in H as (Hne & Hdot & Hns).
  unfold path_of, components. rewrite split_path_no_slash by assumption.
  destruct n as [| c n]; [contradiction |].
  change (flush (EmptyString +:+ String c n)) with [String c n].
  apply String.eqb_neq in Hdot. cbn [List.filter]. rewrite Hdot. reflexivity.
Qed.

Lemma no_slash_snoc (cur : string) (c : ascii) :
  no_slash cur = true -> Ascii.eqb c "/" = false ->
  no_slash (cur +:+ String c EmptyString) = true.
Proof.
  unfold no_slash. intros Hcur Hc.
  induction cur as [| x cur IH].
  - simpl. rewrite Hc. reflexivity.
  - rewrite append_cons. simpl in *.
    apply andb_true_iff in Hcur as [Hx Hcur]. rewrite Hx. simpl. auto.
Qed.

Lemma flush_named (cur : string) :
  no_slash cur = true ->
  Forall (fun n => n <> EmptyString /\ no_slash n = true) (flush cur).
Proof.
  intros H. destruct cur as [| c cur]; constructor; [| constructor].
  split; [discriminate | exact H].
Qed.

Lemma split_path_named (s cur : string) :
  no_slash cur = true ->
  Forall (fun n => n <> EmptyString /\ no_slash n = true) (split_path s cur).
Proof.
  revert cur. induction s as [| c s IH]; intros cur Hcur; simpl.
  - apply flush_named. assumption.
  - destruct (Ascii.eqb c "/") eqn:Ec.
    + apply Forall_app. split; [apply flush_named; assumption |].
      apply IH. reflexivity.
    + apply IH, no_slash_snoc; assumption.
Qed.

Lemma path_of_wf (name : string) : forallb proper (path_of name) = true.
Proof.
  apply forallb_forall. intros n Hin. unfold path_of in Hin.
  apply List.filter_In in Hin as [Hin Hdot].
  pose proof (split_path_named name EmptyString eq_refl) as Hall.
  rewrite Forall_forall in Hall.
  destruct (Hall n (proj2 (list_elem_of_In _ _) Hin)) as [Hne Hns].
  apply proper_spec. repeat split; try assumption.
  apply negb_true_iff, String.eqb_neq in Hdot. exact Hdot.
Qed.

Lemma no_dots_path_of (name : string) :
  no_dots (components name) = true -> plain_path name = true.
Proof.
  unfold plain_path, path_of, no_dots. rewrite !forallb_forall.
  intros H n Hin. apply List.filter_In in Hin as [Hin _]. auto.
Qed.

(** The resolved source and destination of a copy. *)
Lemma src_path file_dir file :
  proper file = true ->
  path_of (file_dir +:+ "/" +:+ file) = path_of file_dir ++ [file].
Proof.
  intros H. rewrite path_of_join, (path_of_proper file) by assumption.
  reflexivity.
Qed.

Lemma dst_path dst_dir label file :
  proper file = true ->
  path_of (dst_dir +:+ "/" +:+ label +:+ "/" +:+ file)
    = (path_of dst_dir ++ path_of label) ++ [file].
Proof.
  intros H. rewrite !path_of_join, (path_of_proper file) by assumption.
  rewrite app_assoc. reflexivity.
Qed.

(** ** The file system *)

Lemma node_at_lookup (st : gmap (list string) node) p :
  p <> [] -> node_at st p = st !! p.
Proof. destruct p; [contradiction | reflexivity]. Qed.

Lemma extends_refl (st : gmap (list string) node) : extends st st.
Proof. split; auto. Qed.

Lemma extends_trans (st1 st2 st3 : gmap (list string) node) :
  extends st1 st2 -> extends st2 st3 -> extends st1 st3.
Proof.
  intros [Hk1 Hn1] [Hk2 Hn2]. split; [auto |].
  intros p n H3. destruct (Hn2 p n H3) as [H2 | [H2 ->]]; [auto |].
  right. split; [| reflexivity].
  destruct (st1 !! p) as [m |] eqn:E1; [| reflexivity].
  apply Hk1 in E1. congruence.
Qed.

Lemma extends_insert_dir (st : gmap (list string) node) p :
  st !! p = None -> extends st (<[p := Dir]> st).
Proof.
  intros Hnone. split.
  - intros q n Hq. rewrite lookup_insert_ne; [assumption | congruence].
  - intros q n Hq. destruct (decide (p = q)) as [<- | Hne].
    + rewrite lookup_insert_eq in Hq. injection Hq as <-. auto.
    + rewrite lookup_insert_ne in Hq by assumption. auto.
Qed.

Lemma extends_node_at (st st' : gmap (list string) node) p n :
  extends st st' -> node_at st p = Some n -> node_at st' p = Some n.
Proof. intros [Hk _]. destruct p; simpl; auto. Qed.

Lemma wf_fs_insert (st : gmap (list string) node) p n :
  wf_fs st -> forallb proper p = true -> wf_fs (<[p := n]> st).
Proof.
  intros Hwf Hp q Hq. destruct (decide (p = q)) as [<- | Hne]; [assumption |].
  rewrite lookup_insert_ne in Hq by assumption. auto.
Qed.

Lemma mkdir_chain_spec rest :
  forall (st : gmap (list string) node) above st',
    mkdir_chain st above rest = inr st' ->
    extends st st' /\
    (forallb proper above = true -> forallb proper rest = true ->
     wf_fs st -> wf_fs st') /\
    (rest <> [] -> is_Some (st' !! (above ++ rest))).
Proof.
  induction rest as [| c rest IH]; intros st above st' H; simpl in H.
  - injection H as <-. split; [apply extends_refl |]. split; [auto | congruence].
  - assert (Hlast : forall (mid : gmap (list string) node),
              is_Some (mid !! (above ++ [c])) ->
              mkdir_chain mid (above ++ [c]) rest = inr st' ->
              is_Some (st' !! (above ++ c :: rest))).
    { intros mid Hmid Hrun. destruct rest as [| c' rest'].
      - simpl in Hrun. injection Hrun as <-. assumption.
      - apply IH in Hrun as (_ & _ & Hex).
        rewrite <- app_assoc in Hex. apply Hex. discriminate. }
    assert (Hwf : forallb proper above = true ->
                  forallb proper (c :: rest) = true ->
                  forallb proper (above ++ [c]) = true /\
                  forallb proper rest = true).
    { simpl. intros Ha Hc. apply andb_true_iff in Hc as [Hc Hr].
      rewrite forallb_app, Ha. simpl. rewrite Hc. auto. }
    destruct (st !! (above ++ [c])) as [[content |] |] eqn:E.
    + discriminate.
    + pose proof (IH _ _ _ H) as (Hext & Hwf' & _).
      split; [assumption |]. split.
      * intros Ha Hc Hst. destruct (Hwf Ha Hc). auto.
      * intros _. apply (Hlast st); [rewrite E; eauto | assumption].
    + pose proof (IH _ _ _ H) as (Hext & Hwf' & _).
      split; [| split].
      * eapply extends_trans; [apply extends_insert_dir |]; eassumption.
      * intros Ha Hc Hst. destruct (Hwf Ha Hc) as [Hp Hr].
        apply Hwf'; try assumption. apply wf_fs_insert; assumption.
      * intros _. apply (Hlast (<[above ++ [c] := Dir]> st));
          [rewrite lookup_insert_eq; eauto | assumption].
Qed.

Lemma path_exists_extends (st st' : gmap (list string) node) name :
  extends st st' -> path_exists st name = true -> path_exists st' name = true.
Proof.
  unfold path_exists. intros Hext.
  destruct (node_at st (path_of name)) as [n |] eqn:E; [| discriminate].
  rewrite (extends_node_at _ _ _ _ Hext E). reflexivity.
Qed.

Lemma makedirs_spec (st : gmap (list string) node) name st' :
  makedirs st name = inr st' ->
  extends st st' /\ (wf_fs st -> wf_fs st') /\ path_exists st' name = true.
Proof.
  unfold makedirs, path_exists.
  destruct (node_at st (path_of name)) eqn:E; [discriminate |].
  intros H. apply mkdir_chain_spec in H as (Hext & Hwf & Hex).
  split; [assumption |]. split.
  - apply Hwf; [reflexivity | apply path_of_wf].
  - destruct (path_of name) as [| c rest]; [discriminate |].
    simpl in *. destruct Hex as [n ->]; [discriminate | reflexivity].
Qed.

Lemma make_label_dirs_spec (yt_ids : dict) (dst_dir : string)
    (st st1 : gmap (list string) node) :
  make_label_dirs yt_ids dst_dir st = inr st1 ->
  extends st st1 /\ (wf_fs st -> wf_fs st1) /\
  forall label, In label (dict_keys yt_ids) ->
    path_exists st1 (dst_dir +:+ "/" +:+ label) = true.
Proof.
  unfold make_label_dirs. generalize (dict_keys yt_ids) as keys.
  intros keys. revert st.
  induction keys as [| k rest IH]; simpl; intros st H.
  - injection H as <-. split; [apply extends_refl |]. split; [auto |].
    intros label [].
  - bind_inv H. apply IH in H as (Hext & Hwf & Hall).
    assert (Hstep : extends st a /\ (wf_fs st -> wf_fs a) /\
                    path_exists a (dst_dir +:+ "/" +:+ k) = true).
    { destruct (path_exists st (dst_dir +:+ "/" +:+ k)) eqn:E.
      - injection Ha as <-. split; [apply extends_refl | auto].
      - apply makedirs_spec. assumption. }
    destruct Hstep as (Hext0 & Hwf0 & Hk).
    split; [eapply extends_trans; eassumption |]. split; [auto |].
    intros label [<- | Hin]; [| auto].
    eapply path_exists_extends; eassumption.
Qed.

Lemma child_name_spec (d p : list string) name :
  child_name d p = Some name <-> p = d ++ [name].
Proof.
  unfold child_name. split.
  - intros H. destruct (drop (length d) p) as [| x [| y rest]] eqn:E;
      try discriminate.
    destruct (bool_decide (take (length d) p = d)) eqn:Et; [| discriminate].
    injection H as ->. apply bool_decide_eq_true in Et.
    rewrite <- (take_drop (length d) p), E, Et. reflexivity.
  - intros ->. rewrite drop_app_length, take_app_length.
    rewrite bool_decide_eq_true_2; reflexivity.
Qed.

Lemma entries_spec (st : gmap (list string) node) d name :
  name ∈ entries st d <-> is_Some (st !! (d ++ [name])).
Proof.
  unfold entries. rewrite elem_of_set_omap. split.
  - intros (p & Hp & Hc). apply child_name_spec in Hc. subst p.
    apply elem_of_dom. assumption.
  - intros H. exists (d ++ [name]). split; [apply elem_of_dom; assumption |].
    apply child_name_spec. reflexivity.
Qed.

Lemma listdir_spec (st : gmap (list string) node) name files :
  listdir st name = inr files ->
  name <> EmptyString /\
  node_at st (path_of name) = Some Dir /\
  files = elements (entries st (path_of name)).
Proof.
  unfold listdir. destruct name as [| c name]; [discriminate |].
  destruct (node_at st (path_of (String c name))) as [[content |] |];
    try discriminate.
  intros [= <-]. repeat split. discriminate.
Qed.

Lemma listdir_entries (st : gmap (list string) node) name files :
  listdir st name = inr files ->
  List.NoDup files /\
  forall file, In file files <-> is_Some (st !! (path_of name ++ [file])).
Proof.
  intros H. apply listdir_spec in H as (_ & _ & ->). split.
  - apply NoDup_ListNoDup, NoDup_elements.
  - intros file. rewrite <- list_elem_of_In, elem_of_elements.
    apply entries_spec.
Qed.

(** ** Sequences of copies *)

Lemma for_each_app {A S : Type} (body : S -> A -> res S) (xs ys : list A) s :
  for_each body (xs ++ ys) s = bind (for_each body xs s) (for_each body ys).
Proof.
  revert s. induction xs as [| x xs IH]; intros s; simpl; [reflexivity |].
  destruct (body s x) as [e | s']; simpl; [reflexivity | apply IH].
Qed.

Lemma copy_matching_run (yt_ids : dict) (file_dir dst_dir : string)
    (files : list string) (st : gmap (list string) node) :
  copy_matching yt_ids file_dir dst_dir files st
    = run_copies (copy_tasks yt_ids file_dir dst_dir files) st.
Proof.
  unfold copy_matching, copy_tasks, run_copies. revert st.
  induction files as [| file files IH]; intros st; simpl; [reflexivity |].
  rewrite for_each_app.
  assert (Hinner : forall st0 : gmap (list string) node,
    for_each (copy_if_listed file_dir dst_dir file) yt_ids st0
    = for_each (fun st task => copy_path st (fst task) (snd task))
        (flat_map (fun item : string * list string =>
           if existsb (fun yt_id => str_in yt_id file) (snd item)
           then [(path_of (file_dir +:+ "/" +:+ file),
                  path_of (dst_dir +:+ "/" +:+ fst item +:+ "/" +:+ file))]
           else [])
          yt_ids) st0).
  { clear IH. induction yt_ids as [| [label ids] rest IHy]; intros st0; simpl;
      [reflexivity |].
    destruct (existsb (fun yt_id => str_in yt_id file) ids); simpl.
    - unfold copyfile.
      destruct (copy_path st0 _ _) as [e | st1]; simpl; [reflexivity | apply IHy].
    - apply IHy. }
  rewrite Hinner.
  destruct (for_each _ (flat_map _ yt_ids) st) as [e | st1]; simpl;
    [reflexivity | apply IH].
Qed.

Lemma copy_tasks_In (yt_ids : dict) (file_dir dst_dir : string)
    (files : list string) s d :
  In (s, d) (copy_tasks yt_ids file_dir dst_dir files) <->
  exists file label ids,
    In file files /\ In (label, ids) yt_ids /\
    existsb (fun yt_id => str_in yt_id file) ids = true /\
    s = path_of (file_dir +:+ "/" +:+ file) /\
    d = path_of (dst_dir +:+ "/" +:+ label +:+ "/" +:+ file).
Proof.
  unfold copy_tasks. rewrite in_flat_map. split.
  - intros (file & Hfile & Hin). apply in_flat_map in Hin as ([label ids] & Hitem & Hin).
    simpl in Hin.
    destruct (existsb (fun yt_id => str_in yt_id file) ids) eqn:E; [| contradiction].
    destruct Hin as [[= <- <-] | []]. exists file, label, ids. auto.
  - intros (file & label & ids & Hfile & Hitem & Hmatch & -> & ->).
    exists file. split; [assumption |]. apply in_flat_map.
    exists (label, ids). split; [assumption |]. simpl. rewrite Hmatch.
    left. reflexivity.
Qed.

Lemma copy_tasks_shaped (yt_ids : dict) (file_dir dst_dir : string)
    (files : list string) :
  (forall file, In file files -> proper file = true) ->
  shaped (path_of file_dir) (copy_tasks yt_ids file_dir dst_dir files).
Proof.
  intros Hproper s d Hin.
  apply copy_tasks_In in Hin as (file & label & ids & Hfile & _ & _ & -> & ->).
  exists file, (path_of dst_dir ++ path_of label).
  rewrite src_path, dst_path by auto. auto.
Qed.

Lemma copy_path_inv (st : gmap (list string) node) (s d : list string)
    (st' : gmap (list string) node) :
  copy_path st s d = inr st' ->
  exists content,
    st !! s = Some (File content) /\ s <> [] /\ d <> [] /\ s <> d /\
    st !! d <> Some Dir /\ node_at st (removelast d) = Some Dir /\
    st' = <[d := File content]> st.
Proof.
  unfold copy_path. intros H.
  destruct (node_at st s) as [[content |] |] eqn:Es; try discriminate;
    destruct (bool_decide (s = d)) eqn:Esd; try discriminate.
  apply bool_decide_eq_false in Esd.
  assert (Hs : s <> []) by (intros ->; discriminate).
  rewrite node_at_lookup in Es by assumption.
  assert (Hd : d <> [] /\ st !! d <> Some Dir).
  { destruct d as [| c d]; simpl in H; [discriminate |].
    split; [discriminate |]. intros Hdir. simpl in Hdir.
    rewrite Hdir in H. discriminate. }
  destruct Hd as [Hd Hnd].
  destruct (node_at st d) as [[c' |] |];
    destruct (node_at st (removelast d)) as [[c'' |] |] eqn:Ep;
    try discriminate; injection H as <-; exists content; auto 10.
Qed.

Lemma run_copies_cons (task : list string * list string)
    (tasks : list (list string * list string))
    (st st' : gmap (list string) node) :
  run_copies (task :: tasks) st = inr st' ->
  exists mid, copy_path st (fst task) (snd task) = inr mid /\
              run_copies tasks mid = inr st'.
Proof. unfold run_copies. simpl. intros H. bind_inv H. eauto. Qed.

(** Directories stay directories. *)
Lemma run_copies_dirs (tasks : list (list string * list string)) :
  forall (st st' : gmap (list string) node),
  run_copies tasks st = inr st' ->
  forall p, node_at st p = Some Dir -> node_at st' p = Some Dir.
Proof.
  induction tasks as [| [s d] tasks IH]; intros st st' H p Hp.
  - injection H as <-. assumption.
  - apply run_copies_cons in H as (mid & Hcopy & Hrest).
    apply copy_path_inv in Hcopy as (c & _ & _ & _ & _ & Hnd & _ & ->).
    apply (IH _ _ Hrest). destruct p as [| x p]; [reflexivity |].
    simpl in *. rewrite lookup_insert_ne; [assumption | congruence].
Qed.

(** Nothing is removed. *)
Lemma run_copies_keeps (tasks : list (list string * list string)) :
  forall (st st' : gmap (list string) node),
  run_copies tasks st = inr st' ->
  forall p, is_Some (st !! p) -> is_Some (st' !! p).
Proof.
  induction tasks as [| [s d] tasks IH]; intros st st' H p Hp.
  - injection H as <-. assumption.
  - apply run_copies_cons in H as (mid & Hcopy & Hrest).
    apply copy_path_inv in Hcopy as (c & _ & _ & _ & _ & _ & _ & ->).
    apply (IH _ _ Hrest). apply lookup_insert_is_Some'. auto.
Qed.

(** What every copy of a run that returns has met. *)
Lemma run_copies_checks (tasks : list (list string * list string)) :
  forall (st st' : gmap (list string) node),
  run_copies tasks st = inr st' ->
  forall s d, In (s, d) tasks ->
    s <> [] /\ d <> [] /\ s <> d /\ node_at st' (removelast d) = Some Dir.
Proof.
  induction tasks as [| [s0 d0] tasks IH]; intros st st' H s d Hin;
    [contradiction |].
  apply run_copies_cons in H as (mid & Hcopy & Hrest).
  destruct Hin as [[= -> ->] | Hin]; [| eauto].
  simpl in Hcopy.
  apply copy_path_inv in Hcopy as (c & _ & Hs & Hd & Hsd & Hnd & Hpar & ->).
  repeat split; try assumption.
  apply (run_copies_dirs _ _ _ Hrest).
  destruct (removelast d) as [| x p] eqn:E; [reflexivity |].
  simpl in *. rewrite lookup_insert_ne; [assumption | congruence].
Qed.

(** The state after a run: every destination holds the content its
    source had at the start, and every other path is as it was. *)
Lemma run_copies_spec (tasks : list (list string * list string)) :
  forall (st st' : gmap (list string) node),
  run_copies tasks st = inr st' ->
  (forall s d s' d', In (s, d) tasks -> In (s', d') tasks -> d <> s') ->
  (forall s d s' d', In (s, d) tasks -> In (s', d') tasks -> d = d' -> s = s') ->
  (forall s d, In (s, d) tasks ->
     exists content, st !! s = Some (File content) /\
                     st' !! d = Some (File content)) /\
  (forall p, (forall s d, In (s, d) tasks -> d <> p) -> st' !! p = st !! p).
Proof.
  induction tasks as [| [s0 d0] tasks IH]; intros st st' H Hapart Hsame.
  - injection H as <-. split; [intros s d [] | reflexivity].
  - apply run_copies_cons in H as (mid & Hcopy & Hrest). simpl in Hcopy.
    apply copy_path_inv in Hcopy as (c & Hs0 & _ & _ & Hsd & _ & _ & ->).
    destruct (IH _ _ Hrest) as [Hdst Hother].
    { intros s d s' d' H1 H2. apply (Hapart s d s' d'); right; assumption. }
    { intros s d s' d' H1 H2. apply (Hsame s d s' d'); right; assumption. }
    split.
    + intros s d [[= -> ->] | Hin].
      * exists c. split; [assumption |].
        destruct (in_dec (List.list_eq_dec String.string_dec) d
                    (map snd tasks)) as [Hd | Hd].
        -- apply in_map_iff in Hd as ([s' d'] & Heq & Hin'). simpl in Heq.
           subst d'.
           assert (s' = s) by
             (apply (Hsame s' d s d); [right | left | ]; auto).
           subst s'. destruct (Hdst s d Hin') as (c' & Hsrc & Hd').
           rewrite lookup_insert_ne in Hsrc by congruence. congruence.
        -- rewrite Hother, lookup_insert_eq; [reflexivity |].
           intros s' d' Hin' ->. apply Hd. apply in_map_iff.
           exists (s', d). auto.
      * destruct (Hdst s d Hin) as (c' & Hsrc & Hd').
        exists c'. split; [| assumption].
        rewrite lookup_insert_ne in Hsrc; [assumption |].
        apply (Hapart s0 d0 s d); [left | right]; auto.
    + intros p Hp. rewrite Hother.
      * apply lookup_insert_ne. apply (Hp s0 d0). left. reflexivity.
      * intros s d Hin. apply (Hp s d). right. assumption.
Qed.

(** A state in which every copy is already in place is left unchanged. *)
Lemma run_copies_fixpoint (tasks : list (list string * list string))
    (st : gmap (list string) node) :
  (forall s d, In (s, d) tasks ->
     s <> [] /\ d <> [] /\ s <> d /\
     node_at st (removelast d) = Some Dir /\
     exists content, st !! s = Some (File content) /\
                     st !! d = Some (File content)) ->
  run_copies tasks st = inr st.
Proof.
  induction tasks as [| [s d] tasks IH]; intros Hall; [reflexivity |].
  destruct (Hall s d (or_introl eq_refl))
    as (Hs & Hd & Hsd & Hpar & c & Hsrc & Hdst).
  assert (Hcopy : copy_path st s d = inr st).
  { unfold copy_path. rewrite (node_at_lookup st s), Hsrc by assumption.
    rewrite bool_decide_eq_false_2 by assumption.
    rewrite (node_at_lookup st d), Hdst, Hpar by assumption.
    unfold ret. rewrite insert_id by assumption. reflexivity. }
  unfold run_copies. simpl. rewrite Hcopy. simpl.
  apply IH. intros s' d' Hin. apply Hall. right. assumption.
Qed.

(** ** File organizer *)

Lemma shaped_apart (fd : list string)
    (tasks : list (list string * list string)) :
  shaped fd tasks ->
  (forall s d, In (s, d) tasks -> s <> d) ->
  (forall s d name, In (s, d) tasks -> d <> fd ++ [name]) /\
  (forall s d s' d', In (s, d) tasks -> In (s', d') tasks -> d <> s') /\
  (forall s d s' d', In (s, d) tasks -> In (s', d') tasks -> d = d' -> s = s').
Proof.
  intros Hshape Hne.
  assert (Hentry : forall s d name, In (s, d) tasks -> d <> fd ++ [name]).
  { intros s d name Hin Heq.
    destruct (Hshape s d Hin) as (file & tgt & -> & ->).
    apply app_inj_tail in Heq as [-> ->]. apply (Hne _ _ Hin). reflexivity. }
  split; [assumption |]. split.
  - intros s d s' d' Hin Hin' Heq.
    destruct (Hshape s' d' Hin') as (file & tgt & -> & _).
    apply (Hentry s d file Hin). assumption.
  - intros s d s' d' Hin Hin' Heq.
    destruct (Hshape s d Hin) as (file & tgt & -> & ->).
    destruct (Hshape s' d' Hin') as (file' & tgt' & -> & ->).
    apply app_inj_tail in Heq as [_ ->]. reflexivity.
Qed.

(** The three phases of a run of [sort_files] that returns. *)
Lemma sort_files_phases (yt_ids : dict) (file_dir : string)
    (dst_dir : option string) (st st' : gmap (list string) node) :
  wf_fs st ->
  sort_files yt_ids file_dir dst_dir st = inr st' ->
  exists st1 files,
    make_label_dirs yt_ids (default_dst file_dir dst_dir) st = inr st1 /\
    listdir st1 file_dir = inr files /\
    run_copies
      (copy_tasks yt_ids file_dir (default_dst file_dir dst_dir) files) st1
      = inr st' /\
    (forall file, In file files -> proper file = true) /\
    shaped (path_of file_dir)
      (copy_tasks yt_ids file_dir (default_dst file_dir dst_dir) files) /\
    (forall s d,
       In (s, d)
          (copy_tasks yt_ids file_dir (default_dst file_dir dst_dir) files) ->
       s <> d).
Proof.
  intros Hwf H. unfold sort_files in H.
  bind_inv H. bind_inv H. rename a into st1, a0 into files.
  rewrite copy_matching_run in H.
  exists st1, files. repeat split; try assumption.
  - intros file Hin.
    apply make_label_dirs_spec in Ha as (_ & Hwf1 & _).
    apply (listdir_entries _ _ _ Ha0) in Hin.
    apply (Hwf1 Hwf) in Hin. rewrite forallb_app in Hin.
    apply andb_true_iff in Hin as [_ Hin]. simpl in Hin.
    rewrite andb_true_r in Hin. assumption.
  - apply copy_tasks_shaped. intros file Hin.
    apply make_label_dirs_spec in Ha as (_ & Hwf1 & _).
    apply (listdir_entries _ _ _ Ha0) in Hin.
    apply (Hwf1 Hwf) in Hin. rewrite forallb_app in Hin.
    apply andb_true_iff in Hin as [_ Hin]. simpl in Hin.
    rewrite andb_true_r in Hin. assumption.
  - intros s d Hin. apply (run_copies_checks _ _ _ H s d Hin).
Qed.

(** ** A tree stays a tree *)

Lemma real_fs_wf (st : gmap (list string) node) : real_fs st -> wf_fs st.
Proof. intros H p Hp. apply (H p Hp). Qed.

Lemma removelast_neq {A : Type} (p : list A) : p <> [] -> removelast p <> p.
Proof.
  intros Hp Heq. apply (f_equal (@length A)) in Heq.
  destruct (exists_last Hp) as (q & x & ->).
  rewrite removelast_last, length_app in Heq. simpl in Heq. lia.
Qed.

Lemma real_fs_insert (st : gmap (list string) node) (p : list string)
    (n : node) :
  real_fs st ->
  p <> [] -> forallb proper p = true -> no_dots p = true ->
  node_at st (removelast p) = Some Dir ->
  n = Dir \/ st !! p <> Some Dir ->
  real_fs (<[p := n]> st).
Proof.
  intros Hreal Hp Hproper Hdots Hparent Hnode q Hq.
  assert (Hat : forall r, node_at st r = Some Dir ->
                          node_at (<[p := n]> st) r = Some Dir).
  { intros r Hr. destruct r as [| x r]; [reflexivity |]. simpl in *.
    destruct (decide (p = x :: r)) as [Heq | Hne].
    - rewrite <- Heq in Hr |- *. rewrite lookup_insert_eq.
      destruct Hnode as [-> | Hnd]; [reflexivity |].
      exfalso. apply Hnd. exact Hr.
    - rewrite lookup_insert_ne by assumption. assumption. }
  destruct (decide (p = q)) as [<- | Hne].
  - repeat split; try assumption. apply Hat. assumption.
  - rewrite lookup_insert_ne in Hq by assumption.
    destruct (Hreal q Hq) as (Hpq & Hdq & Hparq).
    repeat split; try assumption. apply Hat. assumption.
Qed.

Lemma mkdir_chain_real (rest : list string) :
  forall (st : gmap (list string) node) (above : list string)
         (st' : gmap (list string) node),
    real_fs st ->
    node_at st above = Some Dir ->
    forallb proper (above ++ rest) = true ->
    no_dots (above ++ rest) = true ->
    mkdir_chain st above rest = inr st' ->
    real_fs st'.
Proof.
  induction rest as [| c rest IH]; intros st above st' Hreal Habove Hproper
    Hdots H; simpl in H.
  - injection H as <-. assumption.
  - assert (Hsplit : above ++ c :: rest = (above ++ [c]) ++ rest)
      by (rewrite <- app_assoc; reflexivity).
    rewrite Hsplit in Hproper, Hdots.
    assert (Hp : forallb proper (above ++ [c]) = true).
    { rewrite forallb_app in Hproper.
      apply andb_true_iff in Hproper as [Hp _]. exact Hp. }
    assert (Hd : no_dots (above ++ [c]) = true).
    { unfold no_dots in *. rewrite forallb_app in Hdots.
      apply andb_true_iff in Hdots as [Hd _]. exact Hd. }
    assert (Hne : above ++ [c] <> [])
      by (intros Heq; apply app_eq_nil in Heq as [_ Heq]; discriminate).
    destruct (st !! (above ++ [c])) as [[content |] |] eqn:E.
    + discriminate.
    + apply (IH st (above ++ [c]) st'); try assumption.
      rewrite node_at_lookup by assumption. assumption.
    + apply (IH (<[above ++ [c] := Dir]> st) (above ++ [c]) st');
        try assumption.
      * apply real_fs_insert; try assumption; [| left; reflexivity].
        rewrite removelast_last. assumption.
      * rewrite node_at_lookup by assumption. apply lookup_insert_eq.
Qed.

Lemma makedirs_real (st : gmap (list string) node) (name : string)
    (st' : gmap (list string) node) :
  real_fs st -> plain_path name = true ->
  makedirs st name = inr st' -> real_fs st'.
Proof.
  unfold makedirs, plain_path. intros Hreal Hplain H.
  destruct (node_at st (path_of name)); [discriminate |].
  apply (mkdir_chain_real (path_of name) st [] st'); try assumption.
  - reflexivity.
  - apply path_of_wf.
Qed.

Lemma plain_path_join (a b : string) :
  plain_path a = true -> plain_path b = true ->
  plain_path (a +:+ "/" +:+ b) = true.
Proof.
  unfold plain_path, no_dots. intros Ha Hb.
  rewrite path_of_join, forallb_app, Ha, Hb. reflexivity.
Qed.

Lemma make_label_dirs_real (yt_ids : dict) (dst_dir : string)
    (st st1 : gmap (list string) node) :
  real_fs st -> plain_path dst_dir = true ->
  Forall (fun label => plain_label label = true) (dict_keys yt_ids) ->
  make_label_dirs yt_ids dst_dir st = inr st1 ->
  real_fs st1.
Proof.
  unfold make_label_dirs. generalize (dict_keys yt_ids) as keys.
  intros keys Hreal Hdst Hlabels. revert st Hreal.
  induction Hlabels as [| k rest Hk _ IH]; simpl; intros st Hreal H.
  - injection H as <-. assumption.
  - bind_inv H. apply (IH a); [| assumption].
    destruct (path_exists st (dst_dir +:+ "/" +:+ k)).
    + injection Ha as <-. assumption.
    + apply (makedirs_real _ _ _ Hreal) in Ha; [assumption |].
      apply plain_path_join; [assumption |].
      unfold plain_label in Hk. apply andb_true_iff in Hk as [Hk _].
      apply no_dots_path_of. exact Hk.
Qed.

Lemma run_copies_real (tasks : list (list string * list string)) :
  forall st st' : gmap (list string) node,
    real_fs st ->
    (forall s d, In (s, d) tasks ->
       forallb proper d = true /\ no_dots d = true) ->
    run_copies tasks st = inr st' ->
    real_fs st'.
Proof.
  induction tasks as [| [s d] tasks IH]; intros st st' Hreal Hall H.
  - injection H as <-. assumption.
  - apply run_copies_cons in H as (mid & Hcopy & Hrest). simpl in Hcopy.
    apply copy_path_inv in Hcopy
      as (c & _ & _ & Hd & _ & Hnd & Hpar & ->).
    destruct (Hall s d (or_introl eq_refl)) as [Hproper Hdots].
    apply (IH (<[d := File c]> st) st'); [| | assumption].
    + apply real_fs_insert; try assumption. right. assumption.
    + intros s' d' Hin. apply (Hall s' d'). right. assumption.
Qed.

Lemma real_fs_check (st : gmap (list string) node) :
  forallb (fun entry : list string * node =>
             forallb proper (fst entry) && no_dots (fst entry) &&
             match node_at st (removelast (fst entry)) with
             | Some Dir => true
             | _ => false
             end)
          (map_to_list st) = true ->
  real_fs st.
Proof.
  intros H p [n Hn]. rewrite forallb_forall in H.
  assert (Hin : In (p, n) (map_to_list st))
    by (apply list_elem_of_In, elem_of_map_to_list; assumption).
  apply H in Hin. simpl in Hin.
  apply andb_true_iff in Hin as [Hin Hpar].
  apply andb_true_iff in Hin as [Hproper Hdots].
  repeat split; try assumption.
  destruct (node_at st (removelast p)) as [[c |] |]; try discriminate.
  reflexivity.
Qed.

Lemma scenario_fs_real : real_fs scenario_fs.
Proof. apply real_fs_check. vm_compute. reflexivity. Qed.

Lemma sort_files_real (yt_ids : dict) (file_dir : string)
    (dst_dir : option string) (st st' : gmap (list string) node) :
  real_fs st ->
  plain_path (default_dst file_dir dst_dir) = true ->
  Forall (fun label => plain_label label = true) (dict_keys yt_ids) ->
  sort_files yt_ids file_dir dst_dir st = inr st' ->
  real_fs st'.
Proof.
  intros Hreal Hdst Hlabels H.
  destruct (sort_files_phases _ _ _ _ _ (real_fs_wf _ Hreal) H)
    as (st1 & files & Hdirs & Hlist & Hrun & Hproper & _ & _).
  pose proof (make_label_dirs_real _ _ _ _ Hreal Hdst Hlabels Hdirs) as Hreal1.
  apply (run_copies_real _ _ _ Hreal1) in Hrun; [assumption |].
  intros s d Hin.
  apply copy_tasks_In in Hin
    as (file & label & ids & Hfile & Hitem & _ & _ & ->).
  rewrite dst_path by auto.
  assert (Hlabel : plain_path label = true).
  { rewrite Forall_forall in Hlabels.
    assert (Hk : plain_label label = true).
    { apply Hlabels. apply list_elem_of_In.
      change label with (fst (label, ids)). apply in_map. assumption. }
    apply andb_true_iff in Hk as [Hk _]. apply no_dots_path_of. exact Hk. }
  assert (Hname : no_dots [file] = true).
  { apply (listdir_entries _ _ _ Hlist) in Hfile.
    destruct (Hreal1 _ Hfile) as (_ & Hd & _).
    unfold no_dots in Hd. rewrite forallb_app in Hd.
    apply andb_true_iff in Hd as [_ Hd]. exact Hd. }
  split.
  - rewrite !forallb_app, !path_of_wf. simpl.
    rewrite (Hproper file Hfile). reflexivity.
  - unfold plain_path, no_dots in *.
    rewrite !forallb_app, Hdst, Hlabel. exact Hname.
Qed.

(** C9.  On a tree as a file system holds it, for directory arguments
    without [..] component (as [source], [./source] or [data/source/])
    and labels that name a directory below the destination (no [.] or
    [..] component, not ending in a slash): in a run of [sort_files] that
    returns, the entries of the source directory are listed once each,
    without descending; an entry whose name contains a media identifier of
    a label is a regular file, is still in the source directory
    afterwards, and its content is at [dst_dir/label/name]; every path
    that is not such a destination is as it was after the label
    directories had been created. *)
Theorem sort_files_copies_matching (yt_ids : dict) (file_dir : string)
    (dst_dir : option string) (st st' : gmap (list string) node) :
  real_fs st ->
  plain_path file_dir = true ->
  plain_path (default_dst file_dir dst_dir) = true ->
  Forall (fun label => plain_label label = true) (dict_keys yt_ids) ->
  sort_files yt_ids file_dir dst_dir st = inr st' ->
  exists st1 files,
    make_label_dirs yt_ids (default_dst file_dir dst_dir) st = inr st1 /\
    listdir st1 file_dir = inr files /\
    List.NoDup files /\
    (forall file,
       In file files <-> is_Some (st1 !! (path_of file_dir ++ [file]))) /\
    (forall file label ids,
       In file files -> In (label, ids) yt_ids ->
       existsb (fun yt_id => str_in yt_id file) ids = true ->
       exists content,
         st !! path_of (file_dir +:+ "/" +:+ file) = Some (File content) /\
         st' !! path_of (file_dir +:+ "/" +:+ file) = Some (File content) /\
         st' !! path_of (default_dst file_dir dst_dir +:+ "/" +:+ label
                           +:+ "/" +:+ file)
           = Some (File content) /\
         path_of (default_dst file_dir dst_dir +:+ "/" +:+ label
                    +:+ "/" +:+ file)
           = (path_of (default_dst file_dir dst_dir) ++ path_of label)
               ++ [file]) /\
    (forall p,
       (forall file label ids,
          In file files -> In (label, ids) yt_ids ->
          existsb (fun yt_id => str_in yt_id file) ids = true ->
          p <> path_of (default_dst file_dir dst_dir +:+ "/" +:+ label
                          +:+ "/" +:+ file)) ->
       st' !! p = st1 !! p).
Proof.
  intros Hreal _ _ _ H.
  pose proof (real_fs_wf _ Hreal) as Hwf.
  destruct (sort_files_phases _ _ _ _ _ Hwf H)
    as (st1 & files & Hdirs & Hlist & Hrun & Hproper & Hshape & Hne).
  destruct (shaped_apart _ _ Hshape Hne) as (Hentry & Hapart & Hsame).
  destruct (run_copies_spec _ _ _ Hrun Hapart Hsame) as [Hdst Hother].
  destruct (listdir_entries _ _ _ Hlist) as [Hnodup Hfiles].
  exists st1, files. repeat split; try assumption; try apply Hfiles.
  - intros file label ids Hfile Hitem Hmatch.
    assert (Hin : In (path_of (file_dir +:+ "/" +:+ file),
                      path_of (default_dst file_dir dst_dir +:+ "/" +:+ label
                                 +:+ "/" +:+ file))
                     (copy_tasks yt_ids file_dir
                        (default_dst file_dir dst_dir) files))
      by (apply copy_tasks_In; exists file, label, ids; auto).
    destruct (Hdst _ _ Hin) as (content & Hsrc & Hcopy).
    exists content. repeat split.
    + apply make_label_dirs_spec in Hdirs as ((_ & Hnew) & _).
      destruct (Hnew _ _ Hsrc) as [Hold | [_ Hdir]]; [assumption | discriminate].
    + rewrite Hother; [assumption |].
      intros s d Hin' ->. apply (Hapart _ _ _ _ Hin' Hin). reflexivity.
    + assumption.
    + apply dst_path. auto.
  - intros p Hp. apply Hother. intros s d Hin ->.
    apply copy_tasks_In in Hin
      as (file & label & ids & Hfile & Hitem & Hmatch & _ & Heq).
    apply (Hp file label ids); assumption.
Qed.

Lemma sort_files_scenario :
  sort_files [("Speech", ["abc123"])] "source" (Some "dest") scenario_fs
    = inr scenario_sorted.
Proof.
  vm_cast_no_check
    (@eq_refl (res (gmap (list string) node)) (inr scenario_sorted)).
Qed.

(** The same run with the directories written [./source] and [./dest]. *)
Lemma sort_files_scenario_dotted :
  sort_files [("Speech", ["abc123"])] "./source" (Some "./dest") scenario_fs
    = inr scenario_sorted.
Proof.
  vm_cast_no_check
    (@eq_refl (res (gmap (list string) node)) (inr scenario_sorted)).
Qed.

(** What [plain_path] and [plain_label] admit. *)
Lemma plain_examples :
  plain_path "./source" = true /\ plain_path "data//dest/" = true /\
  plain_path "../source" = false /\
  plain_label "Speech" = true /\ plain_label "Music/Jazz" = true /\
  plain_label ".." = false /\ plain_label "." = false /\
  plain_label "Speech/" = false /\ plain_label "" = false.
Proof. repeat split; reflexivity. Qed.

Lemma scenario_labels_plain :
  Forall (fun label => plain_label label = true)
         (dict_keys [("Speech", ["abc123"])]).
Proof. repeat constructor. Qed.

Lemma sort_files_copies_matching_witness :
  sort_files [("Speech", ["abc123"])] "source" (Some "dest") scenario_fs
    = inr scenario_sorted /\
  exists content,
    scenario_fs !! ["source"; "abc123_0.wav"] = Some (File content) /\
    scenario_sorted !! ["source"; "abc123_0.wav"] = Some (File content) /\
    scenario_sorted !! ["dest"; "Speech"; "abc123_0.wav"]
      = Some (File content).
Proof.
  split; [exact sort_files_scenario |].
  destruct (sort_files_copies_matching [("Speech", ["abc123"])] "source"
              (Some "dest") scenario_fs scenario_sorted
              scenario_fs_real eq_refl eq_refl scenario_labels_plain
              sort_files_scenario)
    as (st1 & files & Hdirs & _ & _ & Hfiles & Hcopied & _).
  destruct (Hcopied "abc123_0.wav" "Speech" ["abc123"])
    as (content & Hsrc & Hkept & Hdst & _).
  - apply Hfiles.
    apply make_label_dirs_spec in Hdirs as ((Hkeep & _) & _).
    exists (File "RIFF-wave-data"). apply Hkeep. vm_compute. reflexivity.
  - left. reflexivity.
  - reflexivity.
  - exists content. split; [exact Hsrc |]. split; [exact Hkept | exact Hdst].
Defined.

Lemma make_label_dirs_noop (yt_ids : dict) (dst_dir : string)
    (st : gmap (list string) node) :
  (forall label, In label (dict_keys yt_ids) ->
     path_exists st (dst_dir +:+ "/" +:+ label) = true) ->
  make_label_dirs yt_ids dst_dir st = inr st.
Proof.
  unfold make_label_dirs. generalize (dict_keys yt_ids) as keys.
  induction keys as [| k rest IH]; simpl; intros Hall; [reflexivity |].
  rewrite (Hall k) by auto. simpl. apply IH. auto.
Qed.

Lemma path_exists_keeps (tasks : list (list string * list string))
    (st st' : gmap (list string) node) (name : string) :
  run_copies tasks st = inr st' ->
  path_exists st name = true -> path_exists st' name = true.
Proof.
  unfold path_exists. intros Hrun.
  destruct (path_of name) as [| c p]; [reflexivity |]. simpl.
  destruct (st !! (c :: p)) as [n |] eqn:E; [| discriminate]. intros _.
  destruct (run_copies_keeps _ _ _ Hrun (c :: p)) as [n' ->];
    [rewrite E; eauto | reflexivity].
Qed.

(** C7.  On a tree as a file system holds it, for directory arguments
    without [..] component (as [source], [./source] or [data/source/])
    and labels that name a directory below the destination (no [.] or
    [..] component, not ending in a slash): a run of [sort_files] that
    returns can be repeated on its result with the same arguments; the
    second run returns as well and leaves the file system exactly as the
    first one did.  The first run removes nothing, every entry of the
    source directory is afterwards what it was before, and the result is
    again such a tree. *)
Theorem sort_files_idempotent (yt_ids : dict) (file_dir : string)
    (dst_dir : option string) (st st' : gmap (list string) node) :
  real_fs st ->
  plain_path file_dir = true ->
  plain_path (default_dst file_dir dst_dir) = true ->
  Forall (fun label => plain_label label = true) (dict_keys yt_ids) ->
  sort_files yt_ids file_dir dst_dir st = inr st' ->
  sort_files yt_ids file_dir dst_dir st' = inr st' /\
  (forall p, is_Some (st !! p) -> is_Some (st' !! p)) /\
  (forall name entry,
     st !! (path_of file_dir ++ [name]) = Some entry ->
     st' !! (path_of file_dir ++ [name]) = Some entry) /\
  real_fs st'.
Proof.
  intros Hreal _ Hplain Hlabels H.
  pose proof (real_fs_wf _ Hreal) as Hwf.
  destruct (sort_files_phases _ _ _ _ _ Hwf H)
    as (st1 & files & Hdirs & Hlist & Hrun & Hproper & Hshape & Hne).
  destruct (shaped_apart _ _ Hshape Hne) as (Hentry & Hapart & Hsame).
  destruct (run_copies_spec _ _ _ Hrun Hapart Hsame) as [Hdst Hother].
  destruct (make_label_dirs_spec _ _ _ _ Hdirs) as ((Hkeep & _) & _ & Hexist).
  assert (Hsource : forall name,
            st' !! (path_of file_dir ++ [name])
              = st1 !! (path_of file_dir ++ [name])).
  { intros name. apply Hother. intros s d Hin. eapply Hentry. eassumption. }
  split; [| split; [| split]].
  - unfold sort_files.
    rewrite make_label_dirs_noop
      by (intros label Hin; eapply path_exists_keeps; eauto).
    simpl.
    assert (Hlist' : listdir st' file_dir = inr files).
    { destruct (listdir_spec _ _ _ Hlist) as (Hname & Hdir & ->).
      unfold listdir. destruct file_dir as [| c rest]; [contradiction |].
      rewrite (run_copies_dirs _ _ _ Hrun _ Hdir).
      unfold ret. do 2 f_equal. apply set_eq. intros name.
      rewrite !entries_spec, Hsource. reflexivity. }
    rewrite Hlist'. simpl. rewrite copy_matching_run.
    apply run_copies_fixpoint. intros s d Hin.
    destruct (run_copies_checks _ _ _ Hrun s d Hin) as (Hs & Hd & Hsd & Hpar).
    repeat split; try assumption.
    destruct (Hdst s d Hin) as (content & Hsrc & Hcopy).
    exists content. split; [| assumption].
    rewrite Hother; [assumption |].
    intros s0 d0 Hin0 ->. apply (Hapart _ _ _ _ Hin0 Hin). reflexivity.
  - intros p Hp. apply (run_copies_keeps _ _ _ Hrun).
    destruct Hp as [n Hn]. rewrite (Hkeep _ _ Hn). eauto.
  - intros name entry Hentry0. rewrite Hsource. auto.
  - eapply sort_files_real; eassumption.
Qed.

Lemma sort_files_idempotent_witness :
  sort_files [("Speech", ["abc123"])] "source" (Some "dest") scenario_fs
    = inr scenario_sorted /\
  sort_files [("Speech", ["abc123"])] "source" (Some "dest") scenario_sorted
    = inr scenario_sorted.
Proof.
  split; [exact sort_files_scenario |].
  exact (proj1 (sort_files_idempotent [("Speech", ["abc123"])] "source"
                  (Some "dest") scenario_fs scenario_sorted
                  scenario_fs_real eq_refl eq_refl scenario_labels_plain
                  sort_files_scenario)).
Defined.

(** ** When [sort_files] returns *)

Lemma run_copies_returns (tasks : list (list string * list string)) :
  forall st : gmap (list string) node,
  (forall s d, In (s, d) tasks ->
     s <> [] /\ d <> [] /\ s <> d /\
     (exists content, st !! s = Some (File content)) /\
     st !! d <> Some Dir /\
     node_at st (removelast d) = Some Dir) ->
  exists st', run_copies tasks st = inr st'.
Proof.
  induction tasks as [| [s d] tasks IH]; intros st Hall; [eexists; reflexivity |].
  destruct (Hall s d (or_introl eq_refl))
    as (Hs & Hd & Hsd & (c & Hsrc) & Hnd & Hpar).
  assert (Hcopy : copy_path st s d = inr (<[d := File c]> st)).
  { unfold copy_path. rewrite (node_at_lookup st s), Hsrc by assumption.
    rewrite bool_decide_eq_false_2 by assumption.
    rewrite (node_at_lookup st d), Hpar by assumption.
    destruct (st !! d) as [[c' |] |]; try reflexivity. contradiction. }
  unfold run_copies. simpl. rewrite Hcopy. simpl. apply IH.
  intros s' d' Hin.
  destruct (Hall s' d' (or_intror Hin))
    as (Hs' & Hd' & Hsd' & (c' & Hsrc') & Hnd' & Hpar').
  repeat split; try assumption.
  - destruct (decide (d = s')) as [<- | Hne].
    + exists c. apply lookup_insert_eq.
    + exists c'. rewrite lookup_insert_ne; assumption.
  - destruct (decide (d = d')) as [<- | Hne].
    + rewrite lookup_insert_eq. discriminate.
    + rewrite lookup_insert_ne; assumption.
  - destruct (removelast d') as [| x p] eqn:E; [reflexivity |].
    simpl in *. rewrite lookup_insert_ne; [assumption | congruence].
Qed.

(** Once the label directories are in place, [sort_files] returns when
    the source is a directory, every entry that matches a label is a
    regular file, no label directory is the source directory itself, and
    no destination is a directory. *)
Lemma sort_files_returns (yt_ids : dict) (file_dir : string)
    (dst_dir : option string) (st st1 : gmap (list string) node) :
  wf_fs st ->
  make_label_dirs yt_ids (default_dst file_dir dst_dir) st = inr st1 ->
  file_dir <> EmptyString ->
  node_at st1 (path_of file_dir) = Some Dir ->
  (forall file label ids,
     is_Some (st1 !! (path_of file_dir ++ [file])) ->
     In (label, ids) yt_ids ->
     existsb (fun yt_id => str_in yt_id file) ids = true ->
     (exists content,
        st1 !! (path_of file_dir ++ [file]) = Some (File content)) /\
     path_of file_dir
       <> path_of (default_dst file_dir dst_dir) ++ path_of label /\
     node_at st1 (path_of (default_dst file_dir dst_dir) ++ path_of label)
       = Some Dir /\
     st1 !! ((path_of (default_dst file_dir dst_dir) ++ path_of label)
               ++ [file])
       <> Some Dir) ->
  exists st', sort_files yt_ids file_dir dst_dir st = inr st'.
Proof.
  intros Hwf Hdirs Hname Hdir Hall. unfold sort_files.
  rewrite Hdirs. simpl.
  assert (Hlist : listdir st1 file_dir
                    = inr (elements (entries st1 (path_of file_dir)))).
  { unfold listdir. destruct file_dir; [contradiction |].
    rewrite Hdir. reflexivity. }
  rewrite Hlist. simpl. rewrite copy_matching_run.
  apply run_copies_returns. intros s d Hin.
  apply copy_tasks_In in Hin
    as (file & label & ids & Hfile & Hitem & Hmatch & -> & ->).
  apply (listdir_entries _ _ _ Hlist) in Hfile.
  assert (Hproper : proper file = true).
  { apply make_label_dirs_spec in Hdirs as (_ & Hwf1 & _).
    apply (Hwf1 Hwf) in Hfile. rewrite forallb_app in Hfile.
    apply andb_true_iff in Hfile as [_ Hfile]. simpl in Hfile.
    rewrite andb_true_r in Hfile. assumption. }
  rewrite src_path, dst_path by assumption.
  destruct (Hall file label ids Hfile Hitem Hmatch)
    as (Hsrc & Hne & Hpar & Hnd).
  repeat split; try assumption.
  - intros Heq. apply app_eq_nil in Heq as [_ Heq]. discriminate.
  - intros Heq. apply app_eq_nil in Heq as [_ Heq]. discriminate.
  - intros Heq. apply app_inj_tail in Heq as [Heq _]. contradiction.
  - rewrite removelast_last. assumption.
Qed.

(** * Further properties of the code *)

(** ** Label resolver *)

Lemma filter_length_mono {A : Type} (p q : A -> bool) (l : list A) :
  (forall x, p x = true -> q x = true) ->
  length (List.filter p l) <= length (List.filter q l).
Proof.
  intros Hpq. induction l as [| x l IH]; simpl; [lia |].
  destruct (p x) eqn:Ep.
  - rewrite (Hpq x Ep). simpl. lia.
  - destruct (q x); simpl; lia.
Qed.

Lemma filter_all {A : Type} (p : A -> bool) (l : list A) :
  (forall x, p x = true) -> List.filter p l = l.
Proof.
  intros Hp. induction l as [| x l IH]; simpl; [reflexivity |].
  rewrite Hp, IH. reflexivity.
Qed.

Lemma lower_char_idem (c : ascii) : lower_char (lower_char c) = lower_char c.
Proof.
  destruct c as [b0 b1 b2 b3 b4 b5 b6 b7].
  destruct b0, b1, b2, b3, b4, b5, b6, b7; reflexivity.
Qed.

Lemma lower_idem (s : string) : lower (lower s) = lower s.
Proof.
  induction s as [| c s IH]; simpl; [reflexivity |].
  rewrite lower_char_idem, IH. reflexivity.
Qed.

Lemma str_in_empty (s : string) : str_in EmptyString s = true.
Proof. destruct s; reflexivity. Qed.

(** X1.  For a class name and display names of ASCII characters: whatever
    [get_label_id] returns has two or more members, and its members are
    exactly the identifiers of the table entries whose display name equals
    (strict) or contains (non-strict) the class name, both lower-cased. *)
Theorem get_label_id_returns_matches table class_name strict ids :
  ascii_text class_name = true ->
  Forall (fun row => ascii_text (display_name row) = true) table ->
  get_label_id table class_name strict = inr ids ->
  2 <= length ids /\
  forall i, In i ids <->
    exists row, In row table /\ mid row = i /\
      if strict
      then lower class_name = lower (display_name row)
      else str_in (lower class_name) (lower (display_name row)) = true.
Proof.
  intros _ _ H.
  destruct (get_label_id_cases table class_name strict) as [[Hr Hlen] | [Hr _]];
    rewrite Hr in H; [| discriminate].
  injection H as <-. split; [assumption |].
  intros i. destruct strict;
    [apply label_ids_strict_spec | apply label_ids_loose_spec].
Qed.

Lemma fixture_table_ascii :
  Forall (fun row => ascii_text (display_name row) = true) fixture_table.
Proof. repeat constructor. Qed.

Lemma get_label_id_returns_matches_witness :
  get_label_id fixture_table "SPEECH" false = inr ["/m/09x0r"; "/m/02zsn"] /\
  2 <= length ["/m/09x0r"; "/m/02zsn"].
Proof.
  split; [reflexivity |].
  exact (proj1 (get_label_id_returns_matches fixture_table "SPEECH" false
                  ["/m/09x0r"; "/m/02zsn"] eq_refl fixture_table_ascii
                  eq_refl)).
Defined.

(** X2.  When the strict lookup of a class name returns, the non-strict
    lookup of the same name returns as well, and every strict identifier
    is among the non-strict ones. *)
Theorem get_label_id_strict_within_loose table class_name strict_ids :
  get_label_id table class_name true = inr strict_ids ->
  exists loose_ids,
    get_label_id table class_name false = inr loose_ids /\
    forall i, In i strict_ids -> In i loose_ids.
Proof.
  intros H.
  destruct (get_label_id_cases table class_name true) as [[Hr Hlen] | [Hr _]];
    rewrite Hr in H; [| discriminate].
  injection H as <-.
  exists (label_ids_of table class_name false). split.
  - unfold get_label_id.
    assert (Hle : length (label_ids_of table class_name true)
                  <= length (label_ids_of table class_name false)).
    { unfold label_ids_of. rewrite !length_map. apply filter_length_mono.
      intros row Heq. apply String.eqb_eq in Heq. rewrite Heq.
      apply str_in_refl. }
    destruct (Nat.ltb_spec 1 (length (label_ids_of table class_name false)));
      [reflexivity | lia].
  - intros i. apply label_ids_strict_loose.
Qed.

Lemma get_label_id_strict_within_loose_witness :
  let table :=
    [ {| index := "0"; mid := "/m/0a"; display_name := "Bell" |};
      {| index := "1"; mid := "/m/0b"; display_name := "bell" |};
      {| index := "2"; mid := "/m/0c"; display_name := "Bicycle bell" |} ] in
  get_label_id table "BELL" true = inr ["/m/0a"; "/m/0b"] /\
  exists loose_ids,
    get_label_id table "BELL" false = inr loose_ids /\
    forall i, In i ["/m/0a"; "/m/0b"] -> In i loose_ids.
Proof.
  intros table. split; [reflexivity |].
  exact (get_label_id_strict_within_loose table "BELL" ["/m/0a"; "/m/0b"]
           eq_refl).
Defined.

(** X3.  For a class name and display names of ASCII characters, the case
    of the letters of the class name does not matter: the lookup of a name
    and of its lower-cased form give the same result, whether that is a
    list or an exception. *)
Theorem get_label_id_ignores_case table class_name strict :
  ascii_text class_name = true ->
  Forall (fun row => ascii_text (display_name row) = true) table ->
  get_label_id table (lower class_name) strict
    = get_label_id table class_name strict.
Proof.
  intros _ _. unfold get_label_id, label_ids_of. rewrite lower_idem.
  reflexivity.
Qed.

Lemma get_label_id_ignores_case_witness :
  get_label_id fixture_table "speech" false
    = get_label_id fixture_table "SpEeCh" false /\
  get_label_id fixture_table "SpEeCh" false
    = inr ["/m/09x0r"; "/m/02zsn"].
Proof.
  split; [| reflexivity].
  exact (get_label_id_ignores_case fixture_table "SpEeCh" false eq_refl
           fixture_table_ascii).
Defined.

(** X4.  The empty class name is contained in every display name: on a
    table of two or more entries the non-strict lookup of [""] returns
    the identifier of every entry, in table order. *)
Theorem get_label_id_empty_name table :
  2 <= length table ->
  get_label_id table EmptyString false = inr (map mid table).
Proof.
  intros Hlen. unfold get_label_id, label_ids_of. simpl.
  rewrite filter_all by (intros row; apply str_in_empty).
  rewrite length_map.
  destruct (Nat.ltb_spec 1 (length table)); [reflexivity | lia].
Qed.

Lemma get_label_id_empty_name_witness :
  2 <= length fixture_table /\
  get_label_id fixture_table EmptyString false = inr (map mid fixture_table).
Proof.
  assert (H : 2 <= length fixture_table) by (simpl; lia).
  split; [exact H | exact (get_label_id_empty_name fixture_table H)].
Defined.

(** ** Dataset filter *)

Lemma index_row_short row i :
  length row <= i -> index_row row i = inl IndexError.
Proof.
  intros H. unfold index_row.
  destruct (nth_error row i) eqn:E; [| reflexivity].
  assert (i < length row) by (apply nth_error_Some; congruence). lia.
Qed.

Lemma index_row_long row i :
  i < length row -> index_row row i = inr (nth i row EmptyString).
Proof.
  intros H. unfold index_row.
  destruct (nth_error row i) eqn:E.
  - rewrite (nth_error_nth _ _ _ E). reflexivity.
  - apply nth_error_None in E. lia.
Qed.

Lemma copies_of_short row label labels blacklisted_ids :
  length row < 4 ->
  copies_of row (label :: labels) blacklisted_ids = inl IndexError.
Proof.
  intros H. simpl. unfold keep. rewrite index_row_short by lia. reflexivity.
Qed.

(** X5.  With no wanted identifier nothing is written, whatever the rows
    and the blacklist are; no row is even indexed. *)
Theorem to_write_no_wanted reader blacklisted_ids :
  to_write reader [] blacklisted_ids = inr [].
Proof.
  induction reader as [| row rest IH]; simpl; [reflexivity |].
  rewrite IH. reflexivity.
Qed.

(** X6.  With an empty blacklist the filter is stable: its output is the
    input, in input order, each row repeated once per wanted identifier
    its label field contains (so rows without one are left out). *)
Theorem to_write_keeps_order reader label_id :
  Forall (fun row => 4 <= length row) reader ->
  to_write reader label_id []
    = inr (flat_map
             (fun row => repeat row (matching label_id (nth 3 row EmptyString)))
             reader).
Proof.
  induction 1 as [| row rest Hrow _ IH]; simpl; [reflexivity |].
  destruct (nth_error row 3) as [labels |] eqn:E;
    [| apply nth_error_None in E; lia].
  rewrite (copies_of_clear _ _ _ _ E) by reflexivity.
  rewrite (nth_error_nth _ _ _ E), IH. reflexivity.
Qed.

Lemma to_write_keeps_order_witness :
  let a := ["abc123"; "0"; "10"; "/m/09x0r,/m/0dgw9r"] in
  let b := ["xyz789"; "30"; "40"; "/m/04rlf"] in
  let c := ["def456"; "5"; "15"; "/m/0dgw9r"] in
  to_write [a; b; c] ["/m/09x0r"; "/m/0dgw9r"] [] = inr [a; a; c].
Proof.
  intros a b c.
  exact (to_write_keeps_order [a; b; c] ["/m/09x0r"; "/m/0dgw9r"]
           ltac:(repeat constructor)).
Defined.

(** X7.  A row with fewer than four fields (a comment or header line of
    the dataset file, a blank line) makes the filter raise [IndexError]
    as soon as there is a wanted identifier. *)
Theorem to_write_short_row reader label labels :
  Exists (fun row => length row < 4) reader ->
  to_write reader (label :: labels) [] = inl IndexError.
Proof.
  induction reader as [| row rest IH]; intros Hshort.
  - inversion Hshort.
  - simpl. destruct (Nat.lt_ge_cases (length row) 4) as [Hlt | Hge].
    + pose proof (copies_of_short row label labels [] Hlt) as Hc.
      simpl in Hc. rewrite Hc. reflexivity.
    + destruct (nth_error row 3) as [field |] eqn:E;
        [| apply nth_error_None in E; lia].
      pose proof (copies_of_clear row field (label :: labels) [] E eq_refl)
        as Hc.
      simpl in Hc. rewrite Hc. simpl.
      inversion Hshort as [? ? Hrow | ? ? Hrest]; subst; [lia |].
      rewrite (IH Hrest). reflexivity.
Qed.

Lemma to_write_short_row_witness :
  to_write [ ["abc123"; "0"; "10"; "/m/09x0r"];
             ["# Segments csv created Sun Mar  5 10:54:31 2017"] ]
           ["/m/09x0r"; "/m/02zsn"] []
    = inl IndexError.
Proof.
  apply to_write_short_row. apply Exists_cons_tl, Exists_cons_hd.
  simpl. lia.
Defined.

Lemma keep_list_blacklist label row ids others :
  4 <= length row ->
  keep label row (PList ids :: others)
    = if str_in label (nth 3 row EmptyString) then inl TypeError
      else inr false.
Proof.
  intros H. unfold keep. rewrite index_row_long by lia. simpl.
  destruct (str_in label (nth 3 row EmptyString)); reflexivity.
Qed.

Lemma copies_of_list_blacklist row label_id ids others :
  4 <= length row ->
  copies_of row label_id (PList ids :: others)
    = if existsb (fun label => str_in label (nth 3 row EmptyString)) label_id
      then inl TypeError else inr [].
Proof.
  intros H. induction label_id as [| label rest IH]; [reflexivity |].
  cbn [copies_of existsb]. rewrite keep_list_blacklist by assumption.
  destruct (str_in label (nth 3 row EmptyString)); [reflexivity |].
  simpl. rewrite IH.
  destruct (existsb _ rest); reflexivity.
Qed.

(** X8.  When [blacklisted_ids] starts with a list (as [create_csv] builds
    it from a non-empty blacklist), the filter raises [TypeError] exactly
    when some row carries a wanted identifier, and otherwise returns no
    row at all: the blacklist never removes a row from a non-empty
    result. *)
Theorem to_write_list_blacklist reader label_id ids others :
  Forall (fun row => 4 <= length row) reader ->
  to_write reader label_id (PList ids :: others)
    = if existsb
           (fun row =>
              existsb (fun label => str_in label (nth 3 row EmptyString))
                      label_id)
           reader
      then inl TypeError else inr [].
Proof.
  induction 1 as [| row rest Hrow _ IH]; [reflexivity |].
  cbn [to_write existsb]. rewrite copies_of_list_blacklist by assumption.
  destruct (existsb _ label_id); [reflexivity |].
  simpl. rewrite IH. destruct (existsb _ rest); reflexivity.
Qed.

Lemma to_write_list_blacklist_witness :
  to_write [ ["xyz789"; "30"; "40"; "/m/04rlf"];
             ["abc123"; "0"; "10"; "/m/09x0r,/m/0dgw9r"] ]
           ["/m/09x0r"; "/m/02zsn"] [PList ["/m/zzz"; "/m/yyy"]]
    = inl TypeError /\
  to_write [ ["xyz789"; "30"; "40"; "/m/04rlf"] ]
           ["/m/09x0r"; "/m/02zsn"] [PList ["/m/zzz"; "/m/yyy"]]
    = inr [].
Proof.
  split.
  - exact (to_write_list_blacklist
             [ ["xyz789"; "30"; "40"; "/m/04rlf"];
               ["abc123"; "0"; "10"; "/m/09x0r,/m/0dgw9r"] ]
             ["/m/09x0r"; "/m/02zsn"]
             ["/m/zzz"; "/m/yyy"] [] ltac:(repeat constructor)).
  - exact (to_write_list_blacklist [ ["xyz789"; "30"; "40"; "/m/04rlf"] ]
             ["/m/09x0r"; "/m/02zsn"]
             ["/m/zzz"; "/m/yyy"] [] ltac:(repeat constructor)).
Defined.

Lemma keep_true label row blacklisted_ids :
  keep label row blacklisted_ids = inr true ->
  exists labels, nth_error row 3 = Some labels /\ str_in label labels = true.
Proof.
  unfold keep, index_row.
  destruct (nth_error row 3) as [labels |]; [| discriminate]. simpl.
  destruct (str_in label labels) eqn:E; [| discriminate].
  intros _. exists labels. split; [reflexivity | assumption].
Qed.

Lemma copies_of_wanted row label_id blacklisted_ids here x :
  copies_of row label_id blacklisted_ids = inr here ->
  In x here ->
  x = row /\
  exists label labels,
    In label label_id /\ nth_error row 3 = Some labels /\
    str_in label labels = true.
Proof.
  revert here. induction label_id as [| label rest IH]; simpl; intros here H Hx.
  - injection H as <-. contradiction.
  - bind_inv H. bind_inv H. injection H as <-.
    destruct a.
    + destruct Hx as [<- | Hx].
      * split; [reflexivity |].
        destruct (keep_true _ _ _ Ha) as (labels & Hrow & Hin).
        exists label, labels. auto.
      * destruct (IH _ Ha0 Hx) as (-> & l & ls & Hl & Hrow & Hin).
        split; [reflexivity |]. exists l, ls. auto.
    + destruct (IH _ Ha0 Hx) as (-> & l & ls & Hl & Hrow & Hin).
      split; [reflexivity |]. exists l, ls. auto.
Qed.

(** X9.  Whatever the blacklist, the filter only writes rows it has read
    whose label field contains a wanted identifier: it neither invents
    nor alters a row. *)
Theorem to_write_only_wanted_rows reader label_id blacklisted_ids out row :
  to_write reader label_id blacklisted_ids = inr out ->
  In row out ->
  In row reader /\
  exists label labels,
    In label label_id /\ nth_error row 3 = Some labels /\
    str_in label labels = true.
Proof.
  revert out. induction reader as [| r rest IH]; simpl; intros out H Hin.
  - injection H as <-. contradiction.
  - bind_inv H. bind_inv H. injection H as <-.
    apply in_app_or in Hin as [Hin | Hin].
    + destruct (copies_of_wanted _ _ _ _ _ Ha Hin) as (-> & Hw). auto.
    + destruct (IH _ Ha0 Hin) as (Hr & Hw). auto.
Qed.

Lemma to_write_only_wanted_rows_witness :
  let a := ["abc123"; "0"; "10"; "/m/09x0r,/m/0dgw9r"] in
  let b := ["xyz789"; "30"; "40"; "/m/04rlf"] in
  to_write [a; b] ["/m/09x0r"] [PStr "/"] = inr [] /\
  to_write [a; b] ["/m/09x0r"] [PStr "q"] = inr [a] /\
  In a [a; b].
Proof.
  intros a b. split; [reflexivity |]. split; [reflexivity |].
  exact (proj1 (to_write_only_wanted_rows [a; b] ["/m/09x0r"] [PStr "q"]
                  [a] a eq_refl (or_introl eq_refl))).
Defined.

(** ** [create_csv] *)

Lemma keep_list_false label row ids others k :
  keep label row (PList ids :: others) = inr k -> k = false.
Proof.
  unfold keep, index_row.
  destruct (nth_error row 3) as [labels |]; [| discriminate]. simpl.
  destruct (str_in label labels); [discriminate |]. intros [= <-]. reflexivity.
Qed.

Lemma copies_of_list_nothing row label_id ids others here :
  copies_of row label_id (PList ids :: others) = inr here -> here = [].
Proof.
  revert here. induction label_id as [| label rest IH]; simpl; intros here H.
  - injection H as <-. reflexivity.
  - bind_inv H. bind_inv H. injection H as <-.
    apply keep_list_false in Ha. subst a. auto.
Qed.

Lemma to_write_list_nothing reader label_id ids others out :
  to_write reader label_id (PList ids :: others) = inr out -> out = [].
Proof.
  revert out. induction reader as [| row rest IH]; simpl; intros out H.
  - injection H as <-. reflexivity.
  - bind_inv H. bind_inv H. injection H as <-.
    apply copies_of_list_nothing in Ha. apply IH in Ha0. subst. reflexivity.
Qed.

Lemma blacklisted_ids_head table strict b bs blacklisted_ids :
  map_res (fun blacklisted_class =>
             let! ids := get_label_id table blacklisted_class strict in
             ret (PList ids))
          (b :: bs) = inr blacklisted_ids ->
  exists ids others,
    get_label_id table b strict = inr ids /\
    blacklisted_ids = PList ids :: others.
Proof.
  simpl. intros H. bind_inv H. bind_inv H. injection H as <-.
  bind_inv Ha. injection Ha as <-. eauto.
Qed.

(** X10.  With a non-empty blacklist [create_csv] never writes a row:
    whenever it returns, the list handed to [writer.writerows] is empty. *)
Theorem create_csv_blacklist_writes_nothing table class_name strict
    b bs dataset out :
  create_csv table class_name strict (b :: bs) dataset = inr out ->
  out = [].
Proof.
  unfold create_csv. intros H. bind_inv H. bind_inv H.
  apply blacklisted_ids_head in Ha0 as (ids & others & _ & ->).
  eapply to_write_list_nothing. eassumption.
Qed.

Lemma create_csv_blacklist_writes_nothing_witness :
  let dataset := [ ["xyz789"; "30"; "40"; "/m/04rlf"] ] in
  exists out,
    create_csv music_table "speech" false ["music"] dataset = inr out /\
    out = [].
Proof.
  intros dataset. exists []. split; [reflexivity |].
  exact (create_csv_blacklist_writes_nothing music_table "speech" false
           "music" [] dataset [] eq_refl).
Defined.

Lemma blacklisted_ids_resolved table strict blacklist :
  Forall (fun blacklisted_class =>
            exists ids, get_label_id table blacklisted_class strict = inr ids)
         blacklist ->
  exists blacklisted_ids,
    map_res (fun blacklisted_class =>
               let! ids := get_label_id table blacklisted_class strict in
               ret (PList ids))
            blacklist = inr blacklisted_ids.
Proof.
  induction 1 as [| b bs [ids Hb] _ [rest IH]]; simpl; [eauto |].
  rewrite Hb. simpl. rewrite IH. simpl. eauto.
Qed.

(** X11.  The output file is emptied before the rows are selected.  For
    class names and display names of ASCII characters and a dataset, read
    from another file than the output file, whose rows all have four or
    more fields: when the class and every blacklisted class resolve, the
    blacklist is not empty and some row of the dataset carries a wanted
    identifier, [create_csv] raises [TypeError] and leaves the file of
    the class empty, whatever it held before. *)
Theorem create_csv_file_emptied table class_name strict b bs dataset
    dst_dir old label_id :
  ascii_text class_name = true ->
  Forall (fun blacklisted_class => ascii_text blacklisted_class = true)
         (b :: bs) ->
  Forall (fun row => ascii_text (display_name row) = true) table ->
  get_label_id table class_name strict = inr label_id ->
  Forall (fun blacklisted_class =>
            exists ids, get_label_id table blacklisted_class strict = inr ids)
         (b :: bs) ->
  Forall (fun row => 4 <= length row) dataset ->
  existsb (fun row =>
             existsb (fun label => str_in label (nth 3 row EmptyString))
                     label_id)
          dataset = true ->
  create_csv_file table class_name strict (b :: bs) dataset dst_dir old
    = (Some [], inl TypeError).
Proof.
  intros _ _ _ Hclass Hblack Hwf Hmatch. unfold create_csv_file.
  rewrite Hclass.
  destruct (blacklisted_ids_resolved _ _ _ Hblack) as [blacklisted_ids Hb].
  rewrite Hb.
  apply blacklisted_ids_head in Hb as (ids & others & _ & ->).
  rewrite to_write_list_blacklist, Hmatch by assumption. reflexivity.
Qed.

Lemma create_csv_file_emptied_witness :
  let dataset := [ ["abc123"; "0"; "10"; "/m/09x0r,/m/0dgw9r"] ] in
  let old := Some [ ["old111"; "0"; "10"; "/m/09x0r"] ] in
  create_csv_file music_table "speech" false ["music"] dataset "./data/" old
    = (Some [], inl TypeError) /\
  create_csv_file music_table "speech" false [] dataset "./data/" old
    = (Some dataset, inr "./data/speech.csv") /\
  create_csv_file music_table "saxophone" false [] dataset "./data/" old
    = (old, inl TypeError).
Proof.
  intros dataset old. split; [| split; reflexivity].
  apply (create_csv_file_emptied music_table "speech" false "music" []
           dataset "./data/" old ["/m/09x0r"; "/m/02zsn"]).
  - reflexivity.
  - repeat constructor.
  - repeat constructor.
  - reflexivity.
  - constructor; [| constructor]. eexists. reflexivity.
  - repeat constructor.
  - reflexivity.
Defined.

(** ** Identifier grouper *)

Lemma occurrences_pos label label_ids :
  In label label_ids <-> 0 < occurrences label label_ids.
Proof.
  induction label_ids as [| l rest IH]; simpl; [split; [contradiction | lia] |].
  destruct (String.eqb l label) eqn:E.
  - apply String.eqb_eq in E. split; [lia | auto].
  - apply String.eqb_neq in E. rewrite IH. split; [| tauto].
    intros [Heq | Hpos]; [contradiction | assumption].
Qed.

Lemma In_repeat_pos {A : Type} (x a : A) n :
  In x (repeat a n) <-> x = a /\ 0 < n.
Proof.
  induction n as [| n IH]; simpl; [split; [contradiction | lia] |].
  rewrite IH. split.
  - intros [<- | [-> _]]; split; auto; lia.
  - intros [-> _]. auto.
Qed.

Lemma collected_In label_ids reader label yt_id :
  In yt_id (collected label_ids reader label) <->
  In label label_ids /\
  exists row, In row reader /\ nth 0 row EmptyString = yt_id /\
              str_in label (nth 3 row EmptyString) = true.
Proof.
  unfold collected. rewrite in_flat_map, occurrences_pos. unfold row_adds.
  split.
  - intros (row & Hrow & Hin).
    destruct (str_in label (nth 3 row EmptyString)) eqn:E; [| contradiction].
    apply In_repeat_pos in Hin as [-> Hpos]. eauto 6.
  - intros (Hpos & row & Hrow & <- & Hsub). exists row. split; [assumption |].
    rewrite Hsub. apply In_repeat_pos. auto.
Qed.

Lemma collected_nil label_ids reader label :
  In label label_ids ->
  collected label_ids reader label = [] <->
  existsb (fun row => str_in label (nth 3 row EmptyString)) reader = false.
Proof.
  intros Hin. split.
  - intros Hnil. destruct (existsb _ reader) eqn:E; [| reflexivity].
    apply existsb_exists in E as (row & Hrow & Hsub).
    assert (Hyt : In (nth 0 row EmptyString)
                     (collected label_ids reader label))
      by (apply collected_In; eauto 6).
    rewrite Hnil in Hyt. contradiction.
  - intros Hnone.
    destruct (collected label_ids reader label) as [| yt rest] eqn:E;
      [reflexivity |].
    assert (Hyt : In yt (collected label_ids reader label))
      by (rewrite E; left; reflexivity).
    apply collected_In in Hyt as (_ & row & Hrow & _ & Hsub).
    assert (Htrue : existsb (fun row => str_in label (nth 3 row EmptyString))
                            reader = true)
      by (apply existsb_exists; eauto).
    congruence.
Qed.

(** X12.  With no requested label the grouper returns the empty mapping,
    whatever the rows are; no row is even indexed. *)
Theorem get_yt_ids_no_labels reader : get_yt_ids [] reader = inr [].
Proof.
  assert (H : forall d, collect [] reader d = inr d)
    by (unfold collect; induction reader as [| row rest IH]; simpl; auto).
  unfold get_yt_ids. rewrite H. reflexivity.
Qed.

(** X13.  The keys of a returned mapping are exactly the requested
    labels, each once: no requested label is missing from a result. *)
Theorem get_yt_ids_keys label_ids reader yt_ids :
  get_yt_ids label_ids reader = inr yt_ids ->
  List.NoDup (dict_keys yt_ids) /\
  forall label, In label (dict_keys yt_ids) <-> In label label_ids.
Proof.
  unfold get_yt_ids. intros H. bind_inv H.
  apply collect_groups in Ha as [Hnd Hget].
  apply report_returns in H as [-> _]; [| assumption].
  split; [assumption |]. intros label.
  rewrite <- dict_get_keys, Hget, <- existsb_eqb_In.
  destruct (existsb (String.eqb label) label_ids); split;
    eauto; try discriminate.
  intros [x Hx]. discriminate.
Qed.

Lemma get_yt_ids_keys_witness :
  let reader := [ ["abc123"; "0"; "10"; "/m/09x0r,/m/0dgw9r"];
                  ["xyz789"; "30"; "40"; "/m/0dgw9r"] ] in
  get_yt_ids ["/m/0dgw9r"; "/m/09x0r"; "/m/0dgw9r"] reader
    = inr [ ("/m/0dgw9r", ["abc123"; "abc123"; "xyz789"; "xyz789"]);
            ("/m/09x0r", ["abc123"]) ] /\
  List.NoDup ["/m/0dgw9r"; "/m/09x0r"].
Proof.
  intros reader. split; [reflexivity |].
  exact (proj1 (get_yt_ids_keys ["/m/0dgw9r"; "/m/09x0r"; "/m/0dgw9r"] reader
                  [ ("/m/0dgw9r", ["abc123"; "abc123"; "xyz789"; "xyz789"]);
                    ("/m/09x0r", ["abc123"]) ] eq_refl)).
Defined.

(** X14.  In a returned mapping, the media identifiers under a label are
    exactly the first fields of the rows whose label field contains the
    label: a row that carries several requested labels is listed under
    each of them, and no identifier comes from elsewhere. *)
Theorem get_yt_ids_members label_ids reader yt_ids label ids yt_id :
  get_yt_ids label_ids reader = inr yt_ids ->
  dict_get yt_ids label = Some ids ->
  (In yt_id ids <->
   exists row, In row reader /\ nth 0 row EmptyString = yt_id /\
               str_in label (nth 3 row EmptyString) = true).
Proof.
  unfold get_yt_ids. intros H Hg. bind_inv H.
  apply collect_groups in Ha as [Hnd Hget].
  apply report_returns in H as [-> _]; [| assumption].
  rewrite Hget in Hg.
  destruct (existsb (String.eqb label) label_ids) eqn:E; [| discriminate].
  injection Hg as <-. apply existsb_eqb_In in E.
  rewrite collected_In. tauto.
Qed.

Lemma get_yt_ids_members_witness :
  let shared := ["abc123"; "0"; "10"; "/m/09x0r,/m/0dgw9r"] in
  let reader := [ shared; ["xyz789"; "30"; "40"; "/m/0dgw9r"] ] in
  get_yt_ids ["/m/09x0r"; "/m/0dgw9r"] reader
    = inr [ ("/m/09x0r", ["abc123"]); ("/m/0dgw9r", ["abc123"; "xyz789"]) ] /\
  In "abc123" ["abc123"] /\ In "abc123" ["abc123"; "xyz789"].
Proof.
  intros shared reader. split; [reflexivity |]. split.
  - apply (get_yt_ids_members ["/m/09x0r"; "/m/0dgw9r"] reader
             [ ("/m/09x0r", ["abc123"]); ("/m/0dgw9r", ["abc123"; "xyz789"]) ]
             "/m/09x0r" ["abc123"] "abc123" eq_refl eq_refl).
    exists shared. repeat split. left. reflexivity.
  - apply (get_yt_ids_members ["/m/09x0r"; "/m/0dgw9r"] reader
             [ ("/m/09x0r", ["abc123"]); ("/m/0dgw9r", ["abc123"; "xyz789"]) ]
             "/m/0dgw9r" ["abc123"; "xyz789"] "abc123" eq_refl eq_refl).
    exists shared. repeat split. left. reflexivity.
Defined.

(** X15.  On rows of four or more fields, the grouper returns exactly when
    every requested label occurs in the label field of some row; when one
    does not, it raises [KeyError]. *)
Theorem get_yt_ids_returns_or_raises label_ids reader :
  Forall (fun row => 4 <= length row) reader ->
  if forallb
       (fun label =>
          existsb (fun row => str_in label (nth 3 row EmptyString)) reader)
       label_ids
  then exists yt_ids, get_yt_ids label_ids reader = inr yt_ids
  else get_yt_ids label_ids reader = inl KeyError.
Proof.
  intros Hwf.
  destruct (forallb _ label_ids) eqn:E.
  - apply get_yt_ids_returns; [assumption |].
    intros l Hl Hnil. rewrite forallb_forall in E.
    apply (collected_nil _ _ _ Hl) in Hnil. rewrite (E l Hl) in Hnil.
    discriminate.
  - assert (Hkeys : forall l, In l label_ids ->
              is_Some (dict_get (empty_groups label_ids) l)).
    { intros l Hl. rewrite dict_get_empty_groups.
      apply existsb_eqb_In in Hl. rewrite Hl. eauto. }
    destruct (collect_returns label_ids reader (empty_groups label_ids)
                Hwf Hkeys) as [d Hd].
    assert (Hbad : exists label, In label label_ids /\
              existsb (fun row => str_in label (nth 3 row EmptyString)) reader
                = false).
    { clear - E. induction label_ids as [| l rest IH]; [discriminate |].
      simpl in E. apply andb_false_iff in E as [E | E].
      - exists l. split; [left; reflexivity | assumption].
      - destruct (IH E) as (label & Hin & Hnone).
        exists label. split; [right |]; assumption. }
    destruct Hbad as (label & Hin & Hnone).
    apply (get_yt_ids_empty_label_raises _ _ label d); try assumption.
    apply collected_nil; assumption.
Qed.

Lemma get_yt_ids_returns_or_raises_witness :
  let reader := [ ["abc123"; "0"; "10"; "/m/09x0r"] ] in
  (exists yt_ids, get_yt_ids ["/m/09x0r"] reader = inr yt_ids) /\
  get_yt_ids ["/m/09x0r"; "/m/04rlf"] reader = inl KeyError.
Proof.
  intros reader.
  assert (Hwf : Forall (fun row : list string => 4 <= length row) reader)
    by (repeat constructor).
  split.
  - exact (get_yt_ids_returns_or_raises ["/m/09x0r"] reader Hwf).
  - exact (get_yt_ids_returns_or_raises ["/m/09x0r"; "/m/04rlf"] reader Hwf).
Defined.

Lemma for_each_cons {A S : Type} (body : S -> A -> res S) x xs s :
  for_each body (x :: xs) s = bind (body s x) (for_each body xs).
Proof. reflexivity. Qed.

Lemma collect_short label labels reader : forall d,
  (forall l, In l (label :: labels) -> is_Some (dict_get d l)) ->
  Exists (fun row => length row < 4) reader ->
  collect (label :: labels) reader d = inl IndexError.
Proof.
  unfold collect. induction reader as [| row rest IH]; intros d Hkeys Hshort.
  - inversion Hshort.
  - rewrite for_each_cons. cbv beta.
    destruct (Nat.lt_ge_cases (length row) 4) as [Hlt | Hge].
    + rewrite for_each_cons. unfold collect_step at 1.
      rewrite index_row_short by lia. reflexivity.
    + destruct (collect_row_returns row (label :: labels) d Hge Hkeys)
        as [d1 Hd1].
      rewrite Hd1. cbn [bind].
      inversion Hshort as [? ? Hrow | ? ? Hrest]; subst; [lia |].
      apply IH; [| assumption].
      intros l Hl. apply collect_row_spec in Hd1 as [_ Hg]. rewrite Hg.
      destruct (Hkeys l Hl) as [v ->]. simpl. eauto.
Qed.

(** X16.  A row with fewer than four fields (a comment or header line of
    the dataset file, a blank line) makes the grouper raise [IndexError]
    as soon as a label is requested. *)
Theorem get_yt_ids_short_row label labels reader :
  Exists (fun row => length row < 4) reader ->
  get_yt_ids (label :: labels) reader = inl IndexError.
Proof.
  intros Hshort. unfold get_yt_ids. rewrite collect_short; [reflexivity | |].
  - intros l Hl. rewrite dict_get_empty_groups.
    apply existsb_eqb_In in Hl. rewrite Hl. eauto.
  - assumption.
Qed.

Lemma get_yt_ids_short_row_witness :
  get_yt_ids ["/m/09x0r"]
    [ ["abc123"; "0"; "10"; "/m/09x0r"]; [] ] = inl IndexError.
Proof.
  apply get_yt_ids_short_row. apply Exists_cons_tl, Exists_cons_hd.
  simpl. lia.
Defined.

(** ** File organizer and [find] *)

Lemma copy_matching_no_groups (file_dir dst_dir : string)
    (files : list string) (st : gmap (list string) node) :
  copy_matching [] file_dir dst_dir files st = inr st.
Proof.
  unfold copy_matching.
  induction files as [| file rest IH]; simpl; [reflexivity | exact IH].
Qed.

(** X17.  With an empty mapping [sort_files] lists the source directory
    and does nothing else: it returns the file system unchanged, creating
    no directory and copying no file. *)
Theorem sort_files_no_groups (file_dir : string) (dst_dir : option string)
    (st : gmap (list string) node) :
  file_dir <> EmptyString ->
  node_at st (path_of file_dir) = Some Dir ->
  sort_files [] file_dir dst_dir st = inr st.
Proof.
  intros Hname Hdir. unfold sort_files, make_label_dirs. simpl.
  unfold listdir. destruct file_dir as [| c rest]; [contradiction |].
  rewrite Hdir. simpl. apply copy_matching_no_groups.
Qed.

Lemma sort_files_no_groups_witness :
  sort_files [] "source" (Some "dest") scenario_fs = inr scenario_fs.
Proof.
  apply sort_files_no_groups; [discriminate | vm_compute; reflexivity].
Defined.

(** X18.  On a tree as a file system holds it, for directory arguments
    without [..] component and labels that name a directory below the
    destination (no [.] or [..] component, not ending in a slash): after
    a run of [sort_files] that returns, every label of the mapping has its
    directory entry under the destination, also a label none of whose
    identifiers occurs in a file name, and the result is again such a
    tree. *)
Theorem sort_files_label_dirs (yt_ids : dict) (file_dir : string)
    (dst_dir : option string) (st st' : gmap (list string) node)
    (label : string) :
  real_fs st ->
  plain_path file_dir = true ->
  plain_path (default_dst file_dir dst_dir) = true ->
  Forall (fun label => plain_label label = true) (dict_keys yt_ids) ->
  sort_files yt_ids file_dir dst_dir st = inr st' ->
  In label (dict_keys yt_ids) ->
  real_fs st' /\
  path_exists st' (default_dst file_dir dst_dir +:+ "/" +:+ label) = true.
Proof.
  intros Hreal _ Hplain Hlabels H Hin. split.
  - eapply sort_files_real; eassumption.
  - unfold sort_files in H. bind_inv H. bind_inv H.
    rewrite copy_matching_run in H.
    apply make_label_dirs_spec in Ha as (_ & _ & Hexist).
    eapply path_exists_keeps; eauto.
Qed.

Lemma sort_files_two_labels :
  sort_files [("Speech", ["abc123"]); ("Music", ["nomatch"])]
    "source" (Some "dest") scenario_fs
    = inr scenario_two_labels.
Proof.
  vm_cast_no_check
    (@eq_refl (res (gmap (list string) node)) (inr scenario_two_labels)).
Qed.

Lemma sort_files_label_dirs_witness :
  sort_files [("Speech", ["abc123"]); ("Music", ["nomatch"])]
    "source" (Some "dest") scenario_fs
    = inr scenario_two_labels /\
  path_exists scenario_two_labels ("dest" +:+ "/" +:+ "Music") = true /\
  scenario_two_labels !! ["dest"; "Music"; "abc123_0.wav"] = None.
Proof.
  split; [exact sort_files_two_labels |]. split.
  - exact (proj2 (sort_files_label_dirs
                    [("Speech", ["abc123"]); ("Music", ["nomatch"])]
                    "source" (Some "dest") scenario_fs scenario_two_labels
                    "Music" scenario_fs_real eq_refl eq_refl
                    ltac:(repeat constructor) sort_files_two_labels
                    (or_intror (or_introl eq_refl)))).
  - vm_compute. reflexivity.
Defined.

(** X19.  [find] cannot be used: its call [get_label_id(label)] lacks the
    [strict] argument, so for every non-empty list of labels it raises
    [TypeError] on the first label, before the dataset or the directories
    are looked at; with no label it returns without doing anything. *)
Theorem find_raises (table : list LabelIndexEntry) (labels : list string)
    (reader : list (list string)) (raw_audio_dir destination_dir : string)
    (st : gmap (list string) node) :
  find table labels reader raw_audio_dir destination_dir st
    = match labels with
      | [] => inr st
      | _ :: _ => inl TypeError
      end.
Proof. destruct labels; reflexivity. Qed.

(** X20.  [create_csv] without a blacklist, end to end, for a class name
    and display names of ASCII characters and dataset rows of four or
    more fields: when the class name matches fewer than two table entries
    the label lookup raises [TypeError] before any row is read; otherwise
    the rows written are the dataset rows, in order, each once per
    matching identifier that its label field contains. *)
Theorem create_csv_no_blacklist table class_name strict dataset :
  ascii_text class_name = true ->
  Forall (fun row => ascii_text (display_name row) = true) table ->
  Forall (fun row => 4 <= length row) dataset ->
  create_csv table class_name strict [] dataset
    = if 1 <? length (label_ids_of table class_name strict)
      then inr (flat_map
                  (fun row =>
                     repeat row
                       (matching (label_ids_of table class_name strict)
                                 (nth 3 row EmptyString)))
                  dataset)
      else inl TypeError.
Proof.
  intros _ _ Hwf. unfold create_csv, get_label_id.
  destruct (1 <? length (label_ids_of table class_name strict));
    [| reflexivity].
  simpl. clear - Hwf.
  induction Hwf as [| row rest Hrow _ IH]; simpl; [reflexivity |].
  destruct (nth_error row 3) as [labels |] eqn:E;
    [| apply nth_error_None in E; lia].
  rewrite (copies_of_clear _ _ _ _ E) by reflexivity.
  rewrite (nth_error_nth _ _ _ E), IH. reflexivity.
Qed.

Lemma create_csv_no_blacklist_witness :
  let a := ["abc123"; "0"; "10"; "/m/09x0r,/m/02zsn"] in
  let b := ["xyz789"; "30"; "40"; "/m/04rlf"] in
  let c := ["def456"; "5"; "15"; "/m/02zsn"] in
  create_csv fixture_table "speech" false [] [a; b; c] = inr [a; a; c] /\
  create_csv fixture_table "female speech" false [] [a; b; c] = inl TypeError.
Proof.
  intros a b c. split.
  - exact (create_csv_no_blacklist fixture_table "speech" false [a; b; c]
             eq_refl fixture_table_ascii ltac:(repeat constructor)).
  - exact (create_csv_no_blacklist fixture_table "female speech" false
             [a; b; c] eq_refl fixture_table_ascii
             ltac:(repeat constructor)).
Defined.
